(** * National Parks MCP server: the tool-call handler and its normalizers

    A shallow embedding of [build/index.js] and [build/utils/npsApiClient.js].

    Modelling conventions.
    - JavaScript strings are [string]s; the model of [trim] and [toUpperCase]
      is exact on ASCII text (characters above 127 are left alone).
    - JavaScript numbers are [JsNumber]: [NaN] or an integer.  The tool
      arguments [limit] and [start] and the results of [parseInt] are
      integers; the model is exact below 2^53, where doubles are.
    - Plain data objects are ordered property lists ([VObj]); the object the
      alert handler uses as a dictionary is modelled with the own-property
      order and the inherited properties of an ordinary object.
    - An [async] function is a [Task]: it returns, throws, or awaits one HTTP
      GET of the gateway and continues with what the gateway settled to.
    - Console logging has no effect on any result and is left out. *)

From Stdlib Require Import ZArith NArith List String Ascii Bool Lia.
Import ListNotations.
Open Scope string_scope.
Open Scope list_scope.
Set Warnings "-register-all".

(** ** The JavaScript runtime the program relies on *)

Module Js.

(** *** Strings *)

Definition code (c : ascii) : N := N_of_ascii c.

Definition comma : ascii := ascii_of_N 44.
Definition dquote : ascii := ascii_of_N 34.
Definition backslash : ascii := ascii_of_N 92.
Definition newline : ascii := ascii_of_N 10.

(** [s.split(sep)] for a one-character separator: the pieces between the
    separators, in order; the empty string gives one empty piece. *)
Fixpoint split (sep : ascii) (s : string) : list string :=
  match s with
  | EmptyString => [EmptyString]
  | String c r =>
      if Ascii.eqb c sep then EmptyString :: split sep r
      else match split sep r with
           | [] => [String c EmptyString]
           | t :: ts => String c t :: ts
           end
  end.

(** WhiteSpace and LineTerminator code points below 128: TAB, LF, VT, FF, CR
    and SPACE. *)
Definition isWhiteSpace (c : ascii) : bool :=
  ((9 <=? code c) && (code c <=? 13) || (code c =? 32))%N.

Fixpoint trimStart (s : string) : string :=
  match s with
  | EmptyString => EmptyString
  | String c r => if isWhiteSpace c then trimStart r else s
  end.

Fixpoint trimEnd (s : string) : string :=
  match s with
  | EmptyString => EmptyString
  | String c r =>
      match trimEnd r with
      | EmptyString => if isWhiteSpace c then EmptyString else String c EmptyString
      | t => String c t
      end
  end.

(** [s.trim()], on ASCII text.  The white space above 127 that the code
    also removes (U+00A0, U+3000, U+FEFF, ...) is outside the model: the
    properties about trimming are stated for ASCII text. *)
Definition trim (s : string) : string := trimEnd (trimStart s).

Definition upperChar (c : ascii) : ascii :=
  if ((97 <=? code c) && (code c <=? 122))%N then ascii_of_N (code c - 32) else c.

(** [s.toUpperCase()], on ASCII text: only [a]-[z] change.  The letters
    above 127 that the code also maps, some to more than one character, are
    outside the model: the properties about upper-casing are stated for
    ASCII text, or hold whatever the mapping is. *)
Fixpoint toUpperCase (s : string) : string :=
  match s with
  | EmptyString => EmptyString
  | String c r => String (upperChar c) (toUpperCase r)
  end.

(** [arr.join(sep)] on an array of strings. *)
Fixpoint join (sep : string) (l : list string) : string :=
  match l with
  | [] => EmptyString
  | [x] => x
  | x :: r => (x ++ sep ++ join sep r)%string
  end.

(** [arr.includes(x)] on an array of strings. *)
Definition includes (l : list string) (x : string) : bool :=
  existsb (String.eqb x) l.

(** A string is truthy when it is not empty. *)
Definition truthy_string (s : string) : bool :=
  match s with EmptyString => false | _ => true end.

(** [s.charAt(0)] and [s.slice(1)] *)
Definition charAt0 (s : string) : string :=
  match s with EmptyString => EmptyString | String c _ => String c EmptyString end.

Definition slice1 (s : string) : string :=
  match s with EmptyString => EmptyString | String _ r => r end.

(** *** Numbers *)

Inductive JsNumber : Type :=
| NaN
| Int (z : Z).

(** A number is truthy when it is neither [NaN] nor zero. *)
Definition truthy_number (n : JsNumber) : bool :=
  match n with NaN => false | Int z => negb (z =? 0)%Z end.

(** [Math.min(a, b)] *)
Definition Math_min (a b : JsNumber) : JsNumber :=
  match a, b with
  | Int x, Int y => Int (Z.min x y)
  | _, _ => NaN
  end.

(** The value of a character as a digit in the given radix. *)
Definition digitValue (radix : N) (c : ascii) : option N :=
  let n := code c in
  let d := if ((48 <=? n) && (n <=? 57))%N then Some (n - 48)%N
           else if ((97 <=? n) && (n <=? 122))%N then Some (n - 87)%N
           else if ((65 <=? n) && (n <=? 90))%N then Some (n - 55)%N
           else None in
  match d with
  | Some v => if (v <? radix)%N then Some v else None
  | None => None
  end.

(** The value of the longest prefix of digits, [None] when it is empty. *)
Fixpoint digitsPrefix (radix : N) (s : string) (acc : option N) : option N :=
  match s with
  | EmptyString => acc
  | String c r =>
      match digitValue radix c with
      | Some d =>
          digitsPrefix radix r
            (Some (radix * match acc with Some a => a | None => 0 end + d)%N)
      | None => acc
      end
  end.

(** [parseInt(s)] with no radix: leading white space, a sign, a [0x] prefix,
    then the longest run of digits; [NaN] when there is none.  The result
    is the integer the digits denote; the code holds it in a double, which
    is that integer up to 2^53 and a rounding of it beyond: the properties
    about the digits of a count are stated up to 2^53. *)
Definition parseInt (s : string) : JsNumber :=
  let s1 := trimStart s in
  let '(sign, s2) :=
    match s1 with
    | String c r =>
        if Ascii.eqb c "-"%char then ((-1)%Z, r)
        else if Ascii.eqb c "+"%char then (1%Z, r)
        else (1%Z, s1)
    | EmptyString => (1%Z, s1)
    end in
  let '(radix, s3) :=
    match s2 with
    | String c0 (String cx r) =>
        if Ascii.eqb c0 "0"%char && (Ascii.eqb cx "x"%char || Ascii.eqb cx "X"%char)
        then (16%N, r) else (10%N, s2)
    | _ => (10%N, s2)
    end in
  match digitsPrefix radix s3 None with
  | None => NaN
  | Some n => Int (sign * Z.of_N n)
  end.

(** Decimal digits of a natural number, most significant first. *)
Fixpoint digitsOf (fuel : nat) (n : N) (acc : string) : string :=
  match fuel with
  | O => acc
  | S f =>
      let acc' := String (ascii_of_N (48 + n mod 10)) acc in
      if (n <? 10)%N then acc' else digitsOf f (n / 10)%N acc'
  end.

Definition N_toString (n : N) : string :=
  digitsOf (S (N.to_nat (N.log2 n))) n EmptyString.

(** [String(n)] for the numbers of the model; JSON has no [NaN]. *)
Definition Z_toString (z : Z) : string :=
  if (z <? 0)%Z then String "-"%char (N_toString (Z.abs_N z))
  else N_toString (Z.abs_N z).

(** *** Objects

    The own properties of an ordinary object, in the order in which
    [Object.keys], [Object.entries], the spread syntax and [JSON.stringify]
    visit them: the array-index keys first, in ascending numeric order, then
    the other keys in the order in which they were created. *)

Definition Obj (V : Type) : Type := list (string * V).

Definition isDigit (c : ascii) : bool := ((48 <=? code c) && (code c <=? 57))%N.

Fixpoint allDigits (s : string) : bool :=
  match s with
  | EmptyString => true
  | String c r => isDigit c && allDigits r
  end.

(** The array index a property key denotes: a canonical decimal numeral of
    at most 2^32 - 2. *)
Definition arrayIndex (k : string) : option N :=
  match k with
  | EmptyString => None
  | String c r =>
      if allDigits k && (negb (Ascii.eqb c "0"%char) || negb (truthy_string r))
      then match digitsPrefix 10 k None with
           | Some n => if (n <=? 4294967294)%N then Some n else None
           | None => None
           end
      else None
  end.

Section Objects.
Context {V : Type}.

Fixpoint own_get (k : string) (o : Obj V) : option V :=
  match o with
  | [] => None
  | (k', v) :: r => if String.eqb k k' then Some v else own_get k r
  end.

Fixpoint overwrite (k : string) (v : V) (o : Obj V) : Obj V :=
  match o with
  | [] => []
  | (k', v') :: r =>
      if String.eqb k k' then (k', v) :: r else (k', v') :: overwrite k v r
  end.

Fixpoint insertIndex (i : N) (k : string) (v : V) (o : Obj V) : Obj V :=
  match o with
  | [] => [(k, v)]
  | (k', v') :: r =>
      match arrayIndex k' with
      | Some j => if (j <? i)%N then (k', v') :: insertIndex i k v r
                  else (k, v) :: o
      | None => (k, v) :: o
      end
  end.

(** [o[k] = v] on own data properties: an existing property keeps its
    place, a new one is created. *)
Definition own_set (k : string) (v : V) (o : Obj V) : Obj V :=
  match own_get k o with
  | Some _ => overwrite k v o
  | None =>
      match arrayIndex k with
      | Some i => insertIndex i k v o
      | None => o ++ [(k, v)]
      end
  end.

(** [{ ...target, ...source }]: the own properties of the source, in its
    order, assigned over the target. *)
Definition spread (target source : Obj V) : Obj V :=
  fold_left (fun o kv => own_set (fst kv) (snd kv) o) source target.

End Objects.

(** The properties an object literal inherits from [Object.prototype]; each
    of them has a truthy value that is not an array. *)
Definition objectPrototypeKeys : list string :=
  [ "constructor"; "__defineGetter__"; "__defineSetter__"; "hasOwnProperty";
    "__lookupGetter__"; "__lookupSetter__"; "isPrototypeOf";
    "propertyIsEnumerable"; "toString"; "valueOf"; "__proto__";
    "toLocaleString" ].

Definition inherited (k : string) : bool := includes objectPrototypeKeys k.

(** *** Values and JSON.stringify *)

Inductive Value : Type :=
| VUndefined
| VNull
| VBool (b : bool)
| VNum (n : JsNumber)
| VStr (s : string)
| VArr (items : list Value)
| VObj (props : Obj Value).

(** [v.k] on a plain data object: [undefined] when there is no such own
    property. *)
Definition prop (k : string) (v : Value) : Value :=
  match v with
  | VObj o => match own_get k o with Some x => x | None => VUndefined end
  | _ => VUndefined
  end.

Definition hexDigit (n : N) : ascii :=
  if (n <? 10)%N then ascii_of_N (48 + n) else ascii_of_N (87 + n).

Definition quoteChar (c : ascii) : string :=
  let n := code c in
  if (n =? 8)%N then String backslash "b"
  else if (n =? 9)%N then String backslash "t"
  else if (n =? 10)%N then String backslash "n"
  else if (n =? 12)%N then String backslash "f"
  else if (n =? 13)%N then String backslash "r"
  else if (n =? 34)%N then String backslash (String dquote EmptyString)
  else if (n =? 92)%N then String backslash (String backslash EmptyString)
  else if (n <? 32)%N then
    String backslash
      ("u00" ++ String (hexDigit (n / 16)) (String (hexDigit (n mod 16)) EmptyString))%string
  else String c EmptyString.

Fixpoint escape (s : string) : string :=
  match s with
  | EmptyString => EmptyString
  | String c r => (quoteChar c ++ escape r)%string
  end.

(** The JSON text of a string. *)
Definition quote (s : string) : string :=
  String dquote (escape s ++ String dquote EmptyString)%string.

(** The JSON text of a number: [null] for [NaN], the decimal digits of an
    integer (which is what the code prints for a double holding an integer
    of magnitude up to 2^53). *)
Definition Number_toJSON (n : JsNumber) : string :=
  match n with
  | NaN => "null"
  | Int z => Z_toString z
  end.

Definition nl : string := String newline EmptyString.

(** Serialization with the indentation unit [gap] at the current
    indentation [ind].  A property whose value is [undefined] is left out;
    an [undefined] array element is written [null]. *)
Fixpoint serialize (gap ind : string) (v : Value) {struct v} : string :=
  let inner := (ind ++ gap)%string in
  let wrap (o c : string) (parts : list string) : string :=
    match parts with
    | [] => (o ++ c)%string
    | _ =>
        if truthy_string gap
        then (o ++ nl ++ inner ++ join ("," ++ nl ++ inner) parts ++ nl ++ ind ++ c)%string
        else (o ++ join "," parts ++ c)%string
    end in
  match v with
  | VUndefined => "null"
  | VNull => "null"
  | VBool true => "true"
  | VBool false => "false"
  | VNum n => Number_toJSON n
  | VStr s => quote s
  | VArr items =>
      wrap "[" "]"
        ((fix elements (l : list Value) : list string :=
            match l with
            | [] => []
            | x :: r => serialize gap inner x :: elements r
            end) items)
  | VObj props =>
      wrap "{" "}"
        ((fix members (l : Obj Value) : list string :=
            match l with
            | [] => []
            | (k, VUndefined) :: r => members r
            | (k, x) :: r =>
                (quote k ++ (if truthy_string gap then ": " else ":")
                   ++ serialize gap inner x)%string :: members r
            end) props)
  end.

(** [JSON.stringify(v)] and [JSON.stringify(v, null, 2)] *)
Definition JSON_stringify (v : Value) : string := serialize EmptyString EmptyString v.
Definition JSON_stringify2 (v : Value) : string := serialize "  " EmptyString v.

End Js.

Import Js.

(** ** Upstream records (the shapes the NPS API returns) *)

Module Activity.
Record t := { name : string }.
End Activity.

Module EntranceFee.
Record t := { cost : string; description : string; title : string }.
End EntranceFee.

Module OperatingHours.
Record t :=
  { name : string; description : string; standardHours : Obj string }.
End OperatingHours.

Module PhoneNumber.
Record t :=
  { phoneNumber : string; description : string; extension : string;
    type : string }.
End PhoneNumber.

Module EmailAddress.
Record t := { emailAddress : string; description : string }.
End EmailAddress.

Module Contacts.
Record t :=
  { phoneNumbers : list PhoneNumber.t; emailAddresses : list EmailAddress.t }.
End Contacts.

Module Image.
Record t :=
  { url : string; title : string; altText : string; caption : string;
    credit : string }.
End Image.

Module Address.
Record t :=
  { type : string; line1 : string; line2 : string; city : string;
    stateCode : string; postalCode : string }.
End Address.

Module ParkData.
Record t :=
  { fullName : string; parkCode : string; description : string;
    states : string; url : string; designation : string;
    activities : list Activity.t; topics : list Activity.t;
    weatherInfo : string; directionsInfo : string; directionsUrl : string;
    latitude : string; longitude : string;
    addresses : list Address.t;
    entranceFees : list EntranceFee.t; entrancePasses : list EntranceFee.t;
    operatingHours : list OperatingHours.t;
    contacts : Contacts.t;
    images : list Image.t }.
End ParkData.

Module AlertData.
Record t :=
  { title : string; description : string; parkCode : string;
    category : string; url : string; lastIndexedDate : string }.
End AlertData.

(** The body of a gateway response; [data] is [None] when the body has no
    such property. *)
Module NPSResponse.
Record t (A : Type) :=
  { total : string; limit : string; start : string; data : option (list A) }.
Arguments total {A}.
Arguments limit {A}.
Arguments start {A}.
Arguments data {A}.
End NPSResponse.

(** ** Exceptions and asynchronous tasks *)

Module ZodIssue.
Record t := { expected : string; received : string; path : string }.
End ZodIssue.

(** What a [throw] carries: a [z.ZodError], another [Error] instance with
    its message, or a value that is not an [Error]. *)
Inductive Exn : Type :=
| ZodError (errors : list ZodIssue.t)
| Error (message : string)
| Thrown (v : Value).

Inductive Settled (A : Type) : Type :=
| Fulfilled (a : A)
| Rejected (e : Exn).
Arguments Fulfilled {A}.
Arguments Rejected {A}.

Inductive Endpoint : Type := Parks | Alerts.

Definition endpointPath (e : Endpoint) : string :=
  match e with Parks => "/parks" | Alerts => "/alerts" end.

Definition Entity (e : Endpoint) : Type :=
  match e with Parks => ParkData.t | Alerts => AlertData.t end.

Definition Body (e : Endpoint) : Type := NPSResponse.t (Entity e).

Inductive Task (A : Type) : Type :=
| Return (a : A)
| Throw (e : Exn)
| Get (path : Endpoint) (params : Obj Value)
      (k : Settled (Body path) -> Task A).
Arguments Return {A}.
Arguments Throw {A}.
Arguments Get {A}.

Fixpoint bind {A B : Type} (t : Task A) (f : A -> Task B) : Task B :=
  match t with
  | Return a => f a
  | Throw e => Throw e
  | Get path params k => Get path params (fun r => bind (k r) f)
  end.

(** [try { t } catch (error) { h error }] *)
Fixpoint try_catch {A : Type} (t : Task A) (h : Exn -> Task A) : Task A :=
  match t with
  | Return a => Return a
  | Throw e => h e
  | Get path params k => Get path params (fun r => try_catch (k r) h)
  end.

Notation "x <- t ;; k" := (bind t (fun x => k))
  (at level 61, t at next level, right associativity).

(** The upstream, as a task sees it: what each GET settles to. *)
Definition Gateway : Type := forall path : Endpoint, Obj Value -> Settled (Body path).

Definition Call : Type := (Endpoint * Obj Value)%type.

(** Running a task against a gateway: the GETs issued, in order, and the
    value returned or the exception thrown. *)
Fixpoint run {A : Type} (gw : Gateway) (t : Task A) : list Call * (Exn + A) :=
  match t with
  | Return a => ([], inr a)
  | Throw e => ([], inl e)
  | Get path params k =>
      let '(calls, r) := run gw (k (gw path params)) in
      ((path, params) :: calls, r)
  end.

(** ** utils/npsApiClient.js *)

Module NPSApiClient.

(** [(await this.api.get(path, { params })).data] *)
Definition api_get (path : Endpoint) (params : Obj Value) : Task (Body path) :=
  Get path params
    (fun r => match r with
              | Fulfilled body => Return body
              | Rejected error => Throw error
              end).

Definition getParks (params : Obj Value) : Task (Body Parks) :=
  try_catch (api_get Parks params) (fun error => Throw error).

Definition getParkByCode (parkCode : string) : Task (Body Parks) :=
  try_catch
    (api_get Parks [("parkCode", VStr parkCode); ("limit", VNum (Int 1))])
    (fun error => Throw error).

Definition getAlerts (params : Obj Value) : Task (Body Alerts) :=
  try_catch (api_get Alerts params) (fun error => Throw error).

Definition getAlertsByParkCode (parkCode : string) : Task (Body Alerts) :=
  try_catch (api_get Alerts [("parkCode", VStr parkCode)])
    (fun error => Throw error).

End NPSApiClient.

(** ** index.js: schemas for tool parameters *)

(** The type zod reports for a value it rejects. *)
Definition parsedType (v : Value) : string :=
  match v with
  | VUndefined => "undefined"
  | VNull => "null"
  | VBool _ => "boolean"
  | VNum NaN => "nan"
  | VNum (Int _) => "number"
  | VStr _ => "string"
  | VArr _ => "array"
  | VObj _ => "object"
  end.

Definition invalid_type (key expected : string) (v : Value) : ZodIssue.t :=
  {| ZodIssue.expected := expected; ZodIssue.received := parsedType v;
     ZodIssue.path := key |}.

(** [z.string()] at a key of the argument object; arguments arrive as JSON,
    which has no [undefined], so a missing key is the only absent value. *)
Definition z_string (key : string) (raw : Obj Value)
  : list ZodIssue.t * option string :=
  match own_get key raw with
  | Some (VStr s) => ([], Some s)
  | Some v => ([invalid_type key "string" v], None)
  | None => ([invalid_type key "string" VUndefined], None)
  end.

(** [z.string().optional()] *)
Definition z_string_optional (key : string) (raw : Obj Value)
  : list ZodIssue.t * option string :=
  match own_get key raw with
  | None => ([], None)
  | Some _ => z_string key raw
  end.

(** [z.number().optional()] *)
Definition z_number_optional (key : string) (raw : Obj Value)
  : list ZodIssue.t * option Z :=
  match own_get key raw with
  | None => ([], None)
  | Some (VNum (Int n)) => ([], Some n)
  | Some v => ([invalid_type key "number" v], None)
  end.

(** [schema.parse(raw)]: the parsed object when no key raised an issue, a
    thrown [ZodError] with every issue otherwise. *)
Definition z_parse {A : Type} (issues : list ZodIssue.t) (parsed : A) : Task A :=
  match issues with
  | [] => Return parsed
  | _ => Throw (ZodError issues)
  end.

Definition optionalProp {A : Type} (key : string) (inj : A -> Value)
  (x : option A) : Obj Value :=
  match x with Some a => [(key, inj a)] | None => [] end.

Definition VInt (z : Z) : Value := VNum (Int z).

Module FindParksArgs.
Record t :=
  { stateCode : option string; q : option string; limit : option Z;
    start : option Z; activities : option string }.

(** The own properties of the parsed object, in schema order. *)
Definition props (a : t) : Obj Value :=
  optionalProp "stateCode" VStr (stateCode a)
  ++ optionalProp "q" VStr (q a)
  ++ optionalProp "limit" VInt (limit a)
  ++ optionalProp "start" VInt (start a)
  ++ optionalProp "activities" VStr (activities a).
End FindParksArgs.

Definition FindParksSchema_parse (raw : Obj Value) : Task FindParksArgs.t :=
  let '(e1, stateCode) := z_string_optional "stateCode" raw in
  let '(e2, q) := z_string_optional "q" raw in
  let '(e3, limit) := z_number_optional "limit" raw in
  let '(e4, start) := z_number_optional "start" raw in
  let '(e5, activities) := z_string_optional "activities" raw in
  z_parse (e1 ++ e2 ++ e3 ++ e4 ++ e5)
    {| FindParksArgs.stateCode := stateCode; FindParksArgs.q := q;
       FindParksArgs.limit := limit; FindParksArgs.start := start;
       FindParksArgs.activities := activities |}.

Module GetParkDetailsArgs.
Record t := { parkCode : string }.
End GetParkDetailsArgs.

Definition GetParkDetailsSchema_parse (raw : Obj Value)
  : Task GetParkDetailsArgs.t :=
  let '(e1, parkCode) := z_string "parkCode" raw in
  z_parse e1
    {| GetParkDetailsArgs.parkCode :=
         match parkCode with Some s => s | None => EmptyString end |}.

Module GetAlertsArgs.
Record t :=
  { parkCode : option string; limit : option Z; start : option Z;
    q : option string }.

Definition props (a : t) : Obj Value :=
  optionalProp "parkCode" VStr (parkCode a)
  ++ optionalProp "limit" VInt (limit a)
  ++ optionalProp "start" VInt (start a)
  ++ optionalProp "q" VStr (q a).
End GetAlertsArgs.

Definition GetAlertsSchema_parse (raw : Obj Value) : Task GetAlertsArgs.t :=
  let '(e1, parkCode) := z_string_optional "parkCode" raw in
  let '(e2, limit) := z_number_optional "limit" raw in
  let '(e3, start) := z_number_optional "start" raw in
  let '(e4, q) := z_string_optional "q" raw in
  z_parse (e1 ++ e2 ++ e3 ++ e4)
    {| GetAlertsArgs.parkCode := parkCode; GetAlertsArgs.limit := limit;
       GetAlertsArgs.start := start; GetAlertsArgs.q := q |}.

(** List of valid state codes for validation *)
Definition STATE_CODES : list string :=
  [ "AL"; "AK"; "AZ"; "AR"; "CA"; "CO"; "CT"; "DE"; "FL"; "GA";
    "HI"; "ID"; "IL"; "IN"; "IA"; "KS"; "KY"; "LA"; "ME"; "MD";
    "MA"; "MI"; "MN"; "MS"; "MO"; "MT"; "NE"; "NV"; "NH"; "NJ";
    "NM"; "NY"; "NC"; "ND"; "OH"; "OK"; "OR"; "PA"; "RI"; "SC";
    "SD"; "TN"; "TX"; "UT"; "VT"; "VA"; "WA"; "WV"; "WI"; "WY";
    "DC"; "AS"; "GU"; "MP"; "PR"; "VI"; "UM" ].

(** ** index.js: utility functions for formatting data *)

Definition strings (l : list string) : Value := VArr (map VStr l).

(** [park.states.split(',').map(code => code.trim())] *)
Definition splitStates (states : string) : list string :=
  map (fun code => trim code) (split comma states).

Definition imageValue (image : Image.t) : Value :=
  VObj [ ("url", VStr (Image.url image));
         ("title", VStr (Image.title image));
         ("altText", VStr (Image.altText image));
         ("caption", VStr (Image.caption image));
         ("credit", VStr (Image.credit image)) ].

Definition emailValue (email : EmailAddress.t) : Value :=
  VObj [ ("address", VStr (EmailAddress.emailAddress email));
         ("description", VStr (EmailAddress.description email)) ].

(** The arrow function [formatParkData] maps over the park records. *)
Definition parkSummary (park : ParkData.t) : Value :=
  VObj
    [ ("name", VStr (ParkData.fullName park));
      ("code", VStr (ParkData.parkCode park));
      ("description", VStr (ParkData.description park));
      ("states", strings (splitStates (ParkData.states park)));
      ("url", VStr (ParkData.url park));
      ("designation", VStr (ParkData.designation park));
      ("activities",
        strings (map (fun activity => Activity.name activity)
                   (ParkData.activities park)));
      ("weatherInfo", VStr (ParkData.weatherInfo park));
      ("location",
        VObj [ ("latitude", VStr (ParkData.latitude park));
               ("longitude", VStr (ParkData.longitude park)) ]);
      ("entranceFees",
        VArr (map (fun fee =>
                     VObj [ ("cost", VStr (EntranceFee.cost fee));
                            ("description", VStr (EntranceFee.description fee));
                            ("title", VStr (EntranceFee.title fee)) ])
                (ParkData.entranceFees park)));
      ("operatingHours",
        VArr (map (fun hours =>
                     VObj [ ("name", VStr (OperatingHours.name hours));
                            ("description",
                              VStr (OperatingHours.description hours));
                            ("standardHours",
                              VObj (map (fun dh => (fst dh, VStr (snd dh)))
                                      (OperatingHours.standardHours hours))) ])
                (ParkData.operatingHours park)));
      ("contacts",
        VObj [ ("phoneNumbers",
                 VArr (map (fun phone =>
                              VObj [ ("type", VStr (PhoneNumber.type phone));
                                     ("number",
                                       VStr (PhoneNumber.phoneNumber phone));
                                     ("description",
                                       VStr (PhoneNumber.description phone)) ])
                         (Contacts.phoneNumbers (ParkData.contacts park))));
               ("emailAddresses",
                 VArr (map emailValue
                         (Contacts.emailAddresses (ParkData.contacts park)))) ]);
      ("images", VArr (map imageValue (ParkData.images park))) ].

(** Format the park data into a more readable format for LLMs *)
Definition formatParkData (parkData : list ParkData.t) : list Value :=
  map parkSummary parkData.

(** [day.charAt(0).toUpperCase() + day.slice(1)] followed by the hours, or
    by [Closed] when the hours are the empty string. *)
Definition formatDay (entry : string * string) : string :=
  let '(day, hours) := entry in
  let properDay := (toUpperCase (charAt0 day) ++ slice1 day)%string in
  (properDay ++ ": " ++ (if truthy_string hours then hours else "Closed"))%string.

Definition priced (fee : EntranceFee.t) : Value :=
  VObj [ ("title", VStr (EntranceFee.title fee));
         ("cost", VStr ("$" ++ EntranceFee.cost fee));
         ("description", VStr (EntranceFee.description fee)) ].

(** [park.addresses.find(addr => addr.type === 'Physical') || park.addresses[0]],
    with [None] for [undefined]; an address object is always truthy. *)
Definition physicalAddress (addresses : list Address.t) : option Address.t :=
  match find (fun addr => String.eqb (Address.type addr) "Physical") addresses with
  | Some addr => Some addr
  | None => nth_error addresses 0
  end.

Definition addressValue (physicalAddress : option Address.t) : Value :=
  match physicalAddress with
  | Some a =>
      VObj [ ("line1", VStr (Address.line1 a));
             ("line2", VStr (Address.line2 a));
             ("city", VStr (Address.city a));
             ("stateCode", VStr (Address.stateCode a));
             ("postalCode", VStr (Address.postalCode a)) ]
  | None => VUndefined
  end.

(** Format park details for a single park *)
Definition formatParkDetails (park : ParkData.t) : Value :=
  let physicalAddress := physicalAddress (ParkData.addresses park) in
  let formattedHours :=
    map (fun hours =>
           let formattedStandardHours :=
             map formatDay (OperatingHours.standardHours hours) in
           VObj [ ("name", VStr (OperatingHours.name hours));
                  ("description", VStr (OperatingHours.description hours));
                  ("standardHours", strings formattedStandardHours) ])
      (ParkData.operatingHours park) in
  VObj
    [ ("name", VStr (ParkData.fullName park));
      ("code", VStr (ParkData.parkCode park));
      ("url", VStr (ParkData.url park));
      ("description", VStr (ParkData.description park));
      ("designation", VStr (ParkData.designation park));
      ("states", strings (splitStates (ParkData.states park)));
      ("weatherInfo", VStr (ParkData.weatherInfo park));
      ("directionsInfo", VStr (ParkData.directionsInfo park));
      ("directionsUrl", VStr (ParkData.directionsUrl park));
      ("location",
        VObj [ ("latitude", VStr (ParkData.latitude park));
               ("longitude", VStr (ParkData.longitude park));
               ("address", addressValue physicalAddress) ]);
      ("contacts",
        VObj [ ("phoneNumbers",
                 VArr (map (fun phone =>
                              VObj [ ("type", VStr (PhoneNumber.type phone));
                                     ("number",
                                       VStr (PhoneNumber.phoneNumber phone));
                                     ("extension",
                                       VStr (PhoneNumber.extension phone));
                                     ("description",
                                       VStr (PhoneNumber.description phone)) ])
                         (Contacts.phoneNumbers (ParkData.contacts park))));
               ("emailAddresses",
                 VArr (map emailValue
                         (Contacts.emailAddresses (ParkData.contacts park)))) ]);
      ("entranceFees", VArr (map priced (ParkData.entranceFees park)));
      ("entrancePasses", VArr (map priced (ParkData.entrancePasses park)));
      ("operatingHours", VArr formattedHours);
      ("topics",
        strings (map (fun topic => Activity.name topic) (ParkData.topics park)));
      ("activities",
        strings (map (fun activity => Activity.name activity)
                   (ParkData.activities park)));
      ("images", VArr (map imageValue (ParkData.images park))) ].

(** The formatted alerts are kept as records: the handler reads their
    [parkCode] back when it groups them. *)
Module AlertSummary.
Record t :=
  { title : string; description : string; parkCode : string; type : string;
    url : string; lastUpdated : string }.

(** The object literal, with its properties in the order it lists them. *)
Definition toValue (a : t) : Value :=
  VObj [ ("title", VStr (title a));
         ("description", VStr (description a));
         ("parkCode", VStr (parkCode a));
         ("type", VStr (type a));
         ("url", VStr (url a));
         ("lastUpdated", VStr (lastUpdated a)) ].
End AlertSummary.

(** Categorize the alert type *)
Definition alertType (category : string) : string :=
  if String.eqb category "Information" then "Information (non-emergency)"
  else if String.eqb category "Caution" then "Caution (potential hazard)"
  else if String.eqb category "Danger" then "Danger (significant hazard)"
  else if String.eqb category "Park Closure" then "Park Closure (area inaccessible)"
  else category.

Section Alerts.
(** [s => new Date(s).toLocaleDateString()]: it depends on the locale and
    the time zone of the host, so it is a parameter of the model. *)
Variable toLocaleDateString : string -> string.

Definition alertSummary (alert : AlertData.t) : AlertSummary.t :=
  let lastUpdated :=
    if truthy_string (AlertData.lastIndexedDate alert)
    then toLocaleDateString (AlertData.lastIndexedDate alert)
    else "Unknown" in
  let alertType := alertType (AlertData.category alert) in
  {| AlertSummary.title := AlertData.title alert;
     AlertSummary.description := AlertData.description alert;
     AlertSummary.parkCode := AlertData.parkCode alert;
     AlertSummary.type := alertType;
     AlertSummary.url := AlertData.url alert;
     AlertSummary.lastUpdated := lastUpdated |}.

(** Format the alert data into a more readable format for LLMs *)
Definition formatAlertData (alertData : list AlertData.t) : list AlertSummary.t :=
  map alertSummary alertData.

End Alerts.

(** ** index.js: handling tool executions *)

Module CallToolRequest.
(** [request.params]: the tool name and the argument object, if any. *)
Record t := { name : string; arguments : option (Obj Value) }.
End CallToolRequest.

Inductive Content : Type :=
| TextContent (text : string).

Record CallToolResult : Type := { content : list Content }.

(** [{ content: [{ type: "text", text }] }] *)
Definition textResult (text : string) : CallToolResult :=
  {| content := [TextContent text] |}.

(** An issue as zod lists it in [error.errors]. *)
Definition issueValue (issue : ZodIssue.t) : Value :=
  VObj [ ("code", VStr "invalid_type");
         ("expected", VStr (ZodIssue.expected issue));
         ("received", VStr (ZodIssue.received issue));
         ("path", VArr [VStr (ZodIssue.path issue)]);
         ("message",
           VStr (if String.eqb (ZodIssue.received issue) "undefined"
                 then "Required"
                 else ("Expected " ++ ZodIssue.expected issue ++ ", received "
                         ++ ZodIssue.received issue)%string)) ].

(** Calling [.map] on the [data] of a body that has none. *)
Definition mapOfUndefined : Exn :=
  Error "Cannot read properties of undefined (reading 'map')".

Definition pushIsNotAFunction : Exn :=
  Error "alertsByPark[alert.parkCode].push is not a function".

(** The state codes of [stateCode] that are not in [STATE_CODES]. *)
Definition invalidStatesOf (stateCode : string) : list string :=
  let providedStates :=
    map (fun s => toUpperCase (trim s)) (split comma stateCode) in
  filter (fun state => negb (includes STATE_CODES state)) providedStates.

Definition invalidStatesEnvelope (invalidStates : list string) : Value :=
  VObj [ ("error",
           VStr ("Invalid state code(s): " ++ join ", " invalidStates));
         ("validStateCodes", strings STATE_CODES) ].

(** The invalid states the handler finds: the check is made only when
    [args.stateCode] is truthy. *)
Definition rejectedStates (stateCode : option string) : list string :=
  match stateCode with
  | Some stateCode =>
      if truthy_string stateCode then invalidStatesOf stateCode else []
  | None => []
  end.

(** [args.limit ? Math.min(args.limit, 50) : 10] *)
Definition effectiveLimit (limit : option Z) : JsNumber :=
  match limit with
  | Some l => if truthy_number (Int l) then Math_min (Int l) (Int 50) else Int 10
  | None => Int 10
  end.

(** [{ limit, ...args }] with the [limit] computed above and the own
    properties of the parsed arguments. *)
Definition requestParamsOf (limit : option Z) (args : Obj Value) : Obj Value :=
  let limit := effectiveLimit limit in
  spread [("limit", VNum limit)] args.

(** One round of the [forEach] that groups the alerts: create the array of
    the park code unless [alertsByPark[alert.parkCode]] is truthy, then push
    the alert onto whatever that property holds. *)
Definition groupAlert (alertsByPark : Obj (list AlertSummary.t))
  (alert : AlertSummary.t) : Exn + Obj (list AlertSummary.t) :=
  let key := AlertSummary.parkCode alert in
  let created :=
    match own_get key alertsByPark with
    | Some _ => alertsByPark
    | None => if inherited key then alertsByPark
              else own_set key [] alertsByPark
    end in
  match own_get key created with
  | Some arr => inr (own_set key (arr ++ [alert]) created)
  | None => inl pushIsNotAFunction
  end.

Fixpoint groupAlerts (alerts : list AlertSummary.t)
  (alertsByPark : Obj (list AlertSummary.t))
  : Exn + Obj (list AlertSummary.t) :=
  match alerts with
  | [] => inr alertsByPark
  | alert :: rest =>
      match groupAlert alertsByPark alert with
      | inr alertsByPark' => groupAlerts rest alertsByPark'
      | inl error => inl error
      end
  end.

Definition alertsByParkValue (alertsByPark : Obj (list AlertSummary.t)) : Value :=
  VObj (map (fun kv => (fst kv, VArr (map AlertSummary.toValue (snd kv))))
          alertsByPark).

Section Server.
Variable toLocaleDateString : string -> string.

Definition findParks (arguments : Obj Value) : Task CallToolResult :=
  args <- FindParksSchema_parse arguments ;;
  let invalidStates := rejectedStates (FindParksArgs.stateCode args) in
  if (0 <? List.length invalidStates)%nat then
    Return (textResult (JSON_stringify (invalidStatesEnvelope invalidStates)))
  else
    let requestParams :=
      requestParamsOf (FindParksArgs.limit args) (FindParksArgs.props args) in
    response <- NPSApiClient.getParks requestParams ;;
    match NPSResponse.data response with
    | None => Throw mapOfUndefined
    | Some parkData =>
        let formattedParks := formatParkData parkData in
        let result :=
          VObj [ ("total", VNum (parseInt (NPSResponse.total response)));
                 ("limit", VNum (parseInt (NPSResponse.limit response)));
                 ("start", VNum (parseInt (NPSResponse.start response)));
                 ("parks", VArr formattedParks) ] in
        Return (textResult (JSON_stringify2 result))
    end.

Definition parkNotFound (parkCode : string) : Value :=
  VObj [ ("error", VStr "Park not found");
         ("message", VStr ("No park found with park code: " ++ parkCode)) ].

Definition getParkDetails (arguments : Obj Value) : Task CallToolResult :=
  args <- GetParkDetailsSchema_parse arguments ;;
  response <- NPSApiClient.getParkByCode (GetParkDetailsArgs.parkCode args) ;;
  match NPSResponse.data response with
  | None | Some [] =>
      Return (textResult
                (JSON_stringify2 (parkNotFound (GetParkDetailsArgs.parkCode args))))
  | Some (park :: _) =>
      let parkDetails := formatParkDetails park in
      Return (textResult (JSON_stringify2 parkDetails))
  end.

Definition getAlerts (arguments : Obj Value) : Task CallToolResult :=
  args <- GetAlertsSchema_parse arguments ;;
  let requestParams :=
    requestParamsOf (GetAlertsArgs.limit args) (GetAlertsArgs.props args) in
  response <- NPSApiClient.getAlerts requestParams ;;
  match NPSResponse.data response with
  | None => Throw mapOfUndefined
  | Some alertData =>
      let formattedAlerts := formatAlertData toLocaleDateString alertData in
      match groupAlerts formattedAlerts [] with
      | inl error => Throw error
      | inr alertsByPark =>
          let result :=
            VObj [ ("total", VNum (parseInt (NPSResponse.total response)));
                   ("limit", VNum (parseInt (NPSResponse.limit response)));
                   ("start", VNum (parseInt (NPSResponse.start response)));
                   ("alerts", VArr (map AlertSummary.toValue formattedAlerts));
                   ("alertsByPark", alertsByParkValue alertsByPark) ] in
          Return (textResult (JSON_stringify2 result))
      end
  end.

(** The [catch] block of the handler. *)
Definition onError (error : Exn) : Task CallToolResult :=
  match error with
  | ZodError errors =>
      Return (textResult
                (JSON_stringify2
                   (VObj [ ("error", VStr "Validation error");
                           ("details", VArr (map issueValue errors)) ])))
  | Error message =>
      Return (textResult
                (JSON_stringify2
                   (VObj [ ("error", VStr "Server error");
                           ("message", VStr message) ])))
  | Thrown _ =>
      Return (textResult
                (JSON_stringify2
                   (VObj [ ("error", VStr "Server error");
                           ("message", VStr "Unknown error") ])))
  end.

(** The handler registered for [CallToolRequestSchema]. *)
Definition callTool (request : CallToolRequest.t) : Task CallToolResult :=
  try_catch
    (match CallToolRequest.arguments request with
     | None => Throw (Error "Arguments are required")
     | Some arguments =>
         let name := CallToolRequest.name request in
         if String.eqb name "findParks" then findParks arguments
         else if String.eqb name "getParkDetails" then getParkDetails arguments
         else if String.eqb name "getAlerts" then getAlerts arguments
         else Throw (Error ("Unknown tool: " ++ name))
     end)
    onError.

End Server.

(** ** Notions of the specification

    Definitions that follow the words of the specification, to compare the
    code with. *)

(** The character occurs in the string. *)
Fixpoint occurs (c : ascii) (s : string) : bool :=
  match s with
  | EmptyString => false
  | String d r => Ascii.eqb d c || occurs c r
  end.

(** Every character of the string is white space. *)
Fixpoint allWhiteSpace (s : string) : bool :=
  match s with
  | EmptyString => true
  | String c r => isWhiteSpace c && allWhiteSpace r
  end.

(** The relabeling dictionary, as the specification words it: four known
    categories, every other category left as it is. *)
Definition categoryDictionary : list (string * string) :=
  [ ("Information", "Information (non-emergency)");
    ("Caution", "Caution (potential hazard)");
    ("Danger", "Danger (significant hazard)");
    ("Park Closure", "Park Closure (area inaccessible)") ].

Definition relabel (category : string) : string :=
  match own_get category categoryDictionary with
  | Some label => label
  | None => category
  end.

(** The park codes of a list, each at its first occurrence. *)
Fixpoint firstOccurrences (l : list string) : list string :=
  match l with
  | [] => []
  | x :: r => x :: filter (fun y => negb (String.eqb y x)) (firstOccurrences r)
  end.

(** The alerts of one park, in their original relative order. *)
Definition alertsOf (parkCode : string) (alerts : list AlertSummary.t)
  : list AlertSummary.t :=
  filter (fun alert => String.eqb (AlertSummary.parkCode alert) parkCode) alerts.

(** The grouping the specification describes: one key per park code, in
    the order of first occurrence, each with the alerts of that park. *)
Definition grouped (alerts : list AlertSummary.t) : Obj (list AlertSummary.t) :=
  map (fun parkCode => (parkCode, alertsOf parkCode alerts))
    (firstOccurrences (map AlertSummary.parkCode alerts)).

(** A key that is neither an array index nor inherited from
    [Object.prototype]. *)
Definition plainKey (k : string) : bool :=
  match arrayIndex k with
  | Some _ => false
  | None => negb (inherited k)
  end.

(** A non-empty string of decimal digits, and the number it denotes. *)
Definition isDecimal (s : string) : bool := truthy_string s && allDigits s.

Fixpoint decimalValue (s : string) : N :=
  match s with
  | EmptyString => 0
  | String c r => (code c - 48) * 10 ^ N.of_nat (String.length r) + decimalValue r
  end.

(** The two ways the handler serializes what it returns. *)
Definition handlerText (text : string) : Prop :=
  (exists v, text = JSON_stringify2 v)
  \/ exists invalidStates,
       invalidStates <> []
       /\ text = JSON_stringify (invalidStatesEnvelope invalidStates).

(** ** Sample data *)

Definition sampleAddress (type line1 : string) : Address.t :=
  {| Address.type := type; Address.line1 := line1; Address.line2 := EmptyString;
     Address.city := "Yosemite"; Address.stateCode := "CA";
     Address.postalCode := "95389" |}.

Definition samplePark (states : string) (addresses : list Address.t) : ParkData.t :=
  {| ParkData.fullName := "Yosemite National Park"; ParkData.parkCode := "yose";
     ParkData.description := "Granite cliffs"; ParkData.states := states;
     ParkData.url := "https://www.nps.gov/yose"; ParkData.designation := "National Park";
     ParkData.activities := [ {| Activity.name := "Hiking" |} ];
     ParkData.topics := [ {| Activity.name := "Glaciers" |} ];
     ParkData.weatherInfo := "Varies"; ParkData.directionsInfo := "By road";
     ParkData.directionsUrl := "https://www.nps.gov/yose/directions";
     ParkData.latitude := "37.8"; ParkData.longitude := "-119.5";
     ParkData.addresses := addresses;
     ParkData.entranceFees := []; ParkData.entrancePasses := [];
     ParkData.operatingHours := [];
     ParkData.contacts :=
       {| Contacts.phoneNumbers := []; Contacts.emailAddresses := [] |};
     ParkData.images := [] |}.

Definition sampleAlert (parkCode category : string) : AlertData.t :=
  {| AlertData.title := "Road work"; AlertData.description := "Expect delays";
     AlertData.parkCode := parkCode; AlertData.category := category;
     AlertData.url := "https://www.nps.gov/alerts";
     AlertData.lastIndexedDate := EmptyString |}.

Definition sampleBody {A : Type} (total : string) (data : option (list A))
  : NPSResponse.t A :=
  {| NPSResponse.total := total; NPSResponse.limit := "10";
     NPSResponse.start := "0"; NPSResponse.data := data |}.

(** A stub upstream that answers every GET with one fixed body per
    endpoint. *)
Definition stubGateway (parks : Body Parks) (alerts : Body Alerts) : Gateway :=
  fun path _ =>
    match path as p return Settled (Body p) with
    | Parks => Fulfilled parks
    | Alerts => Fulfilled alerts
    end.

Definition emptyGateway : Gateway :=
  stubGateway (sampleBody "0" (Some [])) (sampleBody "0" (Some [])).

Definition request (name : string) (arguments : Obj Value) : CallToolRequest.t :=
  {| CallToolRequest.name := name; CallToolRequest.arguments := Some arguments |}.

Definition sameText (s : string) : string := s.

Definition fiveAlerts : list AlertData.t :=
  [ sampleAlert "yose" "Danger"; sampleAlert "grca" "Caution";
    sampleAlert "yose" "Information"; sampleAlert "grca" "Park Closure";
    sampleAlert "yose" "Wildlife" ].


(** ** index.js: tool definitions *)

(** The schema a tool advertises.  [zodToJsonSchema] renders it as a JSON
    schema; the model keeps which schema it is. *)
Inductive InputSchema : Type :=
| FindParksSchema
| GetParkDetailsSchema
| GetAlertsSchema.

Module Tool.
Record t := { name : string; description : string; inputSchema : InputSchema }.
End Tool.

(** The handler registered for [ListToolsRequestSchema]. *)
Definition listTools : list Tool.t :=
  [ {| Tool.name := "findParks";
       Tool.description :=
         "Search for national parks based on state, name, activities, or other criteria";
       Tool.inputSchema := FindParksSchema |};
    {| Tool.name := "getParkDetails";
       Tool.description := "Get detailed information about a specific national park";
       Tool.inputSchema := GetParkDetailsSchema |};
    {| Tool.name := "getAlerts";
       Tool.description :=
         "Get current alerts for national parks including closures, hazards, and important information";
       Tool.inputSchema := GetAlertsSchema |} ].

(** The issues a schema raises on an argument object, key by key in the
    order of the schema. *)
Definition schemaIssues (schema : InputSchema) (raw : Obj Value) : list ZodIssue.t :=
  match schema with
  | FindParksSchema =>
      fst (z_string_optional "stateCode" raw) ++ fst (z_string_optional "q" raw)
      ++ fst (z_number_optional "limit" raw) ++ fst (z_number_optional "start" raw)
      ++ fst (z_string_optional "activities" raw)
  | GetParkDetailsSchema => fst (z_string "parkCode" raw)
  | GetAlertsSchema =>
      fst (z_string_optional "parkCode" raw) ++ fst (z_number_optional "limit" raw)
      ++ fst (z_number_optional "start" raw) ++ fst (z_string_optional "q" raw)
  end.

(** ** Further notions for the properties below *)

Definition isString (v : Value) : bool :=
  match v with VStr _ => true | _ => false end.

Definition isNumber (v : Value) : bool :=
  match v with VNum (Int _) => true | _ => false end.

(** The key is present in the argument object with a value of another type
    than the schema asks for. *)
Definition offending (raw : Obj Value) (entry : string * (Value -> bool)) : bool :=
  match own_get (fst entry) raw with
  | Some v => negb (snd entry v)
  | None => false
  end.

Definition FindParksKeys : list (string * (Value -> bool)) :=
  [ ("stateCode", isString); ("q", isString); ("limit", isNumber);
    ("start", isNumber); ("activities", isString) ].

Definition GetAlertsKeys : list (string * (Value -> bool)) :=
  [ ("parkCode", isString); ("limit", isNumber); ("start", isNumber);
    ("q", isString) ].

Definition offendingKeys (keys : list (string * (Value -> bool))) (raw : Obj Value)
  : list string :=
  map fst (filter (offending raw) keys).

(** The envelopes of the [catch] block. *)
Definition serverError (message : string) : CallToolResult :=
  textResult
    (JSON_stringify2
       (VObj [ ("error", VStr "Server error"); ("message", VStr message) ])).

Definition validationError (errors : list ZodIssue.t) : CallToolResult :=
  textResult
    (JSON_stringify2
       (VObj [ ("error", VStr "Validation error");
               ("details", VArr (map issueValue errors)) ])).

(** A decimal numeral with no superfluous leading zero. *)
Definition canonicalNumeral (s : string) : bool :=
  match s with
  | EmptyString => false
  | String c r =>
      allDigits s && (negb (Ascii.eqb c "0"%char) || negb (truthy_string r))
  end.

(** The number of alerts held by the groups of an object. *)
Definition groupedCount (o : Obj (list AlertSummary.t)) : nat :=
  list_sum (map (fun kv => List.length (snd kv)) o).

(** A stub upstream on which every GET fails with the given error. *)
Definition failingGateway (error : Exn) : Gateway :=
  fun _ _ => Rejected error.

(** The group of a park code in an object, empty when the object has
    none. *)
Definition groupOr (o : Obj (list AlertSummary.t)) (k : string)
  : list AlertSummary.t :=
  match own_get k o with Some arr => arr | None => [] end.

(** The object holds, for every key, exactly the alerts of that park code
    among the given ones, and holds no other key. *)
Definition holdsGroupsOf (alerts : list AlertSummary.t)
  (o : Obj (list AlertSummary.t)) : Prop :=
  forall k,
    own_get k o
    = if existsb (String.eqb k) (map AlertSummary.parkCode alerts)
      then Some (alertsOf k alerts) else None.

(** The first character is a digit other than zero. *)
Definition leadingNonzero (s : string) : bool :=
  match s with
  | EmptyString => false
  | String c _ => isDigit c && negb (Ascii.eqb c "0"%char)
  end.

(** What an awaited GET gives its caller: the body, or the error thrown. *)
Definition awaited {A : Type} (r : Settled A) : Exn + A :=
  match r with
  | Fulfilled body => inr body
  | Rejected error => inl error
  end.

(** The elements of an array value. *)
Definition items (v : Value) : list Value :=
  match v with VArr l => l | _ => [] end.

(** The string with its first character upper-cased. *)
Definition capitalized (s : string) : string :=
  match s with
  | EmptyString => EmptyString
  | String c r => String (upperChar c) r
  end.

(** The order of two keys of an object, the first listed before the
    second: array indices ascend, and no array index follows another
    key. *)
Definition keyBefore (k k' : string) : Prop :=
  match arrayIndex k, arrayIndex k' with
  | Some i, Some j => (i < j)%N
  | None, Some _ => False
  | _, _ => True
  end.

Fixpoint keysOrdered (keys : list string) : Prop :=
  match keys with
  | [] => True
  | k :: rest => (forall k', In k' rest -> keyBefore k k') /\ keysOrdered rest
  end.

Definition isIndexKey (k : string) : bool :=
  match arrayIndex k with Some _ => true | None => false end.

(** The string is ASCII text: every character is below 128.  On such
    strings the model of [trim], [toUpperCase] and [charAt] is exact. *)
Fixpoint isAscii (s : string) : bool :=
  match s with
  | EmptyString => true
  | String c r => (code c <? 128)%N && isAscii r
  end.

(** The string neither starts nor ends with white space. *)
Definition startsClean (s : string) : bool :=
  match s with
  | EmptyString => true
  | String c _ => negb (isWhiteSpace c)
  end.

Fixpoint endsClean (s : string) : bool :=
  match s with
  | EmptyString => true
  | String c EmptyString => negb (isWhiteSpace c)
  | String _ r => endsClean r
  end.

(** [token] is [piece] without its leading and trailing white space. *)
Definition isTrimOf (piece token : string) : Prop :=
  exists pre post,
    piece = (pre ++ token ++ post)%string
    /\ allWhiteSpace pre = true /\ allWhiteSpace post = true
    /\ startsClean token = true /\ endsClean token = true.

(** [v] is the array of the pieces of [raw] between its commas, each
    without its leading and trailing white space, in their order. *)
Definition statesField (raw : string) (v : Value) : Prop :=
  exists pieces tokens,
    pieces <> []
    /\ raw = join "," pieces
    /\ (forall t, In t pieces -> occurs comma t = false)
    /\ Forall2 isTrimOf pieces tokens
    /\ v = VArr (map VStr tokens).

(** A non-empty string of decimal digits that denotes an integer of at
    most 2^53: up to there a double holds every integer exactly, so
    [parseInt] and the number that [JSON.stringify] writes are exact. *)
Definition exactEcho (s : string) : bool :=
  isDecimal s && (decimalValue s <=? 9007199254740992)%N.

(** * Properties *)

(** ** Splitting and trimming *)

Lemma split_not_nil (sep : ascii) (s : string) : split sep s <> [].
Proof.
  induction s as [|c r IH]; simpl; [discriminate|].
  destruct (Ascii.eqb c sep); [discriminate|].
  destruct (split sep r); [contradiction|discriminate].
Qed.

(** Joining the pieces with the separator gives the string back: the pieces
    are exactly what stands between the separators, in order. *)
Lemma join_split (sep : ascii) (s : string) :
  join (String sep EmptyString) (split sep s) = s.
Proof.
  induction s as [|c r IH]; simpl; [reflexivity|].
  pose proof (split_not_nil sep r) as Hne.
  destruct (Ascii.eqb c sep) eqn:E.
  - apply Ascii.eqb_eq in E; subst c.
    destruct (split sep r) as [|t ts]; [contradiction|].
    change (join (String sep EmptyString) (EmptyString :: t :: ts))
      with (String sep (join (String sep EmptyString) (t :: ts))).
    now rewrite IH.
  - destruct (split sep r) as [|t ts]; [contradiction|].
    destruct ts as [|t' ts]; simpl in *; now rewrite IH.
Qed.

(** No piece contains the separator. *)
Lemma split_pieces (sep : ascii) (s t : string) :
  In t (split sep s) -> occurs sep t = false.
Proof.
  revert t; induction s as [|c r IH]; simpl; intros t Hin.
  - destruct Hin as [<-|[]]; reflexivity.
  - destruct (Ascii.eqb c sep) eqn:E.
    + destruct Hin as [<-|Hin]; [reflexivity|now apply IH].
    + pose proof (split_not_nil sep r) as Hne.
      destruct (split sep r) as [|t0 ts]; [contradiction|].
      destruct Hin as [<-|Hin].
      * simpl. rewrite E. apply IH. now left.
      * apply IH. now right.
Qed.

Lemma trimStart_decompose (s : string) :
  exists pre, s = (pre ++ trimStart s)%string /\ allWhiteSpace pre = true.
Proof.
  induction s as [|c r [pre [Heq Hws]]]; simpl.
  - now exists EmptyString.
  - destruct (isWhiteSpace c) eqn:E.
    + exists (String c pre). simpl. rewrite E, Hws. split; [now f_equal|reflexivity].
    + now exists EmptyString.
Qed.

Lemma trimEnd_decompose (s : string) :
  exists post, s = (trimEnd s ++ post)%string /\ allWhiteSpace post = true.
Proof.
  induction s as [|c r [post [Heq Hws]]]; simpl.
  - now exists EmptyString.
  - destruct (trimEnd r) as [|d t] eqn:Ht.
    + simpl in Heq. subst post. destruct (isWhiteSpace c) eqn:E.
      * exists (String c r). simpl. now rewrite E, Hws.
      * exists r. now split.
    + exists post. split; [|exact Hws]. simpl. f_equal. exact Heq.
Qed.

(** [trim] removes white space, and only white space, from both ends. *)
Lemma trim_decompose (s : string) :
  exists pre post,
    s = (pre ++ trim s ++ post)%string
    /\ allWhiteSpace pre = true /\ allWhiteSpace post = true.
Proof.
  destruct (trimStart_decompose s) as [pre [Hpre Hws]].
  destruct (trimEnd_decompose (trimStart s)) as [post [Hpost Hws']].
  exists pre, post. unfold trim. now rewrite <- Hpost.
Qed.

Lemma trimStart_head (s : string) :
  match trimStart s with
  | EmptyString => True
  | String c _ => isWhiteSpace c = false
  end.
Proof.
  induction s as [|c r IH]; simpl; [exact I|].
  destruct (isWhiteSpace c) eqn:E; [exact IH|exact E].
Qed.

Lemma trimEnd_head (c : ascii) (r : string) :
  isWhiteSpace c = false -> exists t, trimEnd (String c r) = String c t.
Proof.
  intros E. simpl. destruct (trimEnd r); [rewrite E|]; eexists; reflexivity.
Qed.

(** What [trim] returns does not start with white space and is left as it
    is by a second [trimEnd]: it does not end with white space either. *)
Lemma trim_is_trimmed (s : string) :
  match trim s with
  | EmptyString => True
  | String c _ => isWhiteSpace c = false
  end
  /\ trimEnd (trim s) = trim s.
Proof.
  split.
  - unfold trim. pose proof (trimStart_head s) as E.
    destruct (trimStart s) as [|c r]; [exact I|].
    destruct (trimEnd_head c r E) as [t' ->]. exact E.
  - unfold trim. generalize (trimStart s). intros t.
    induction t as [|c r IH]; simpl; [reflexivity|].
    destruct (trimEnd r) as [|d t'] eqn:Ht.
    + destruct (isWhiteSpace c) eqn:E; simpl; [reflexivity|now rewrite E].
    + simpl in IH |- *. destruct (trimEnd t') eqn:Ht'.
      * destruct (isWhiteSpace d); [discriminate|]. now rewrite IH.
      * now rewrite IH.
Qed.

(** ** The normalizers *)

Lemma trimEnd_endsClean (s : string) : endsClean (trimEnd s) = true.
Proof.
  induction s as [|c r IH]; simpl; [reflexivity|].
  destruct (trimEnd r) as [|d t].
  - destruct (isWhiteSpace c) eqn:E; simpl; [reflexivity|now rewrite E].
  - exact IH.
Qed.

(** What [trim] returns is the string without its leading and trailing
    white space. *)
Lemma trim_isTrimOf (s : string) : isTrimOf s (trim s).
Proof.
  destruct (trim_decompose s) as [pre [post [Heq [Hpre Hpost]]]].
  exists pre, post. repeat split; try assumption.
  - pose proof (proj1 (trim_is_trimmed s)) as H. unfold startsClean.
    destruct (trim s); [reflexivity|now rewrite H].
  - apply trimEnd_endsClean.
Qed.

Lemma splitStates_statesField (raw : string) :
  statesField raw (VArr (map VStr (splitStates raw))).
Proof.
  exists (split comma raw), (map trim (split comma raw)). repeat split.
  - apply split_not_nil.
  - change ","%string with (String comma EmptyString). now rewrite join_split.
  - intros t. apply split_pieces.
  - induction (split comma raw) as [|t l IH]; simpl; constructor;
      [apply trim_isTrimOf|exact IH].
Qed.

(** C5. For every well-formed park record (its raw [states] string is
    ASCII text), the summary mapping ([formatParkData], at each position of
    the array) and the detail mapping ([formatParkDetails]) produce a
    [states] field that is the array of the pieces of the raw [states]
    string between its commas, each without its leading and trailing white
    space, in their order. *)
Theorem states_are_split_and_trimmed :
  forall (parkData : list ParkData.t) (park : ParkData.t),
    (forall p, In p parkData -> isAscii (ParkData.states p) = true) ->
    isAscii (ParkData.states park) = true ->
    Forall2 (fun p out => statesField (ParkData.states p) (prop "states" out))
      parkData (formatParkData parkData)
    /\ statesField (ParkData.states park) (prop "states" (formatParkDetails park)).
Proof.
  intros parkData park _ _. split.
  - unfold formatParkData.
    induction parkData as [|p l IH]; simpl; constructor; [|exact IH].
    apply splitStates_statesField.
  - apply splitStates_statesField.
Qed.

Lemma states_are_split_and_trimmed_witness :
  statesField "WY, MT ,ID"
    (prop "states" (formatParkDetails (samplePark "WY, MT ,ID" [])))
  /\ prop "states" (formatParkDetails (samplePark "WY, MT ,ID" []))
     = VArr [VStr "WY"; VStr "MT"; VStr "ID"].
Proof.
  split; [|reflexivity].
  refine (proj2 (states_are_split_and_trimmed
                   [samplePark "CA" []] (samplePark "WY, MT ,ID" []) _ eq_refl)).
  intros p [<-|[]]. reflexivity.
Defined.

Lemma alertType_relabel (category : string) : alertType category = relabel category.
Proof.
  unfold alertType, relabel, categoryDictionary, own_get.
  repeat match goal with
         | |- context [String.eqb ?a ?b] => destruct (String.eqb a b)
         end; reflexivity.
Qed.

(** C6. For every alert record of the input array, the [type] of the
    normalized alert is the dictionary label of its category: the four known
    categories are relabeled, and a category that is not in the dictionary
    is the [type] unchanged. *)
Theorem alert_type_is_the_dictionary_label :
  forall (toLocaleDateString : string -> string) (alertData : list AlertData.t),
    map AlertSummary.type (formatAlertData toLocaleDateString alertData)
    = map (fun alert => relabel (AlertData.category alert)) alertData
    /\ relabel "Information" = "Information (non-emergency)"
    /\ relabel "Caution" = "Caution (potential hazard)"
    /\ relabel "Danger" = "Danger (significant hazard)"
    /\ relabel "Park Closure" = "Park Closure (area inaccessible)"
    /\ forall category,
         ~ In category ["Information"; "Caution"; "Danger"; "Park Closure"] ->
         relabel category = category.
Proof.
  intros f alertData. split; [|repeat split; try reflexivity].
  - unfold formatAlertData. rewrite map_map. apply map_ext.
    intros alert. simpl. apply alertType_relabel.
  - intros category Hnot. rewrite <- alertType_relabel. unfold alertType.
    repeat match goal with
           | |- context [String.eqb ?a ?b] =>
               destruct (String.eqb_spec a b) as [->|_];
               [exfalso; apply Hnot; simpl; tauto|]
           end.
    reflexivity.
Qed.

Lemma alert_type_is_the_dictionary_label_witness :
  relabel "Wildlife" = "Wildlife".
Proof.
  apply (proj2 (proj2 (proj2 (proj2 (proj2
           (alert_type_is_the_dictionary_label sameText [])))))).
  simpl. intros [H|[H|[H|[H|[]]]]]; discriminate H.
Defined.

Lemma find_first {A : Type} (p : A -> bool) (pre : list A) (a : A) (post : list A) :
  (forall b, In b pre -> p b = false) -> p a = true ->
  find p (pre ++ a :: post) = Some a.
Proof.
  intros Hpre Ha. induction pre as [|b pre IH]; simpl.
  - now rewrite Ha.
  - rewrite (Hpre b (or_introl eq_refl)). apply IH.
    intros b' Hb'. apply Hpre. now right.
Qed.

Lemma find_none_all {A : Type} (p : A -> bool) (l : list A) :
  (forall b, In b l -> p b = false) -> find p l = None.
Proof.
  intros H. induction l as [|b l IH]; simpl; [reflexivity|].
  rewrite (H b (or_introl eq_refl)). apply IH.
  intros b' Hb'. apply H. now right.
Qed.

(** C9. In the detail mapping, [location.address] is the object of the
    five address lines (line1, line2, city, stateCode, postalCode) of the
    first address whose type is [Physical] when there is one, of the first
    address of the list when none is tagged so; it is [undefined] exactly
    when the list is empty, in which case the serialized location has no
    [address] property; [formatParkDetails] is a total function of the
    record. *)
Theorem address_prefers_physical :
  forall park : ParkData.t,
    let addresses := ParkData.addresses park in
    let location := prop "location" (formatParkDetails park) in
    let built (a : Address.t) :=
      VObj [ ("line1", VStr (Address.line1 a));
             ("line2", VStr (Address.line2 a));
             ("city", VStr (Address.city a));
             ("stateCode", VStr (Address.stateCode a));
             ("postalCode", VStr (Address.postalCode a)) ] in
    (forall pre a post,
        addresses = pre ++ a :: post ->
        (forall b, In b pre -> Address.type b <> "Physical") ->
        Address.type a = "Physical" ->
        prop "address" location = built a)
    /\ (forall a rest,
           addresses = a :: rest ->
           (forall b, In b addresses -> Address.type b <> "Physical") ->
           prop "address" location = built a)
    /\ (addresses = [] ->
        prop "address" location = VUndefined
        /\ JSON_stringify2 location
           = JSON_stringify2
               (VObj [ ("latitude", VStr (ParkData.latitude park));
                       ("longitude", VStr (ParkData.longitude park)) ]))
    /\ (addresses <> [] -> prop "address" location <> VUndefined).
Proof.
  intros park addresses location built.
  assert (Hloc : prop "address" location = addressValue (physicalAddress addresses))
    by reflexivity.
  split; [|split; [|split]].
  - intros pre a post Heq Hpre Ha. rewrite Hloc. unfold physicalAddress.
    rewrite Heq, (find_first _ pre a post); [reflexivity| |].
    + intros b Hb. apply String.eqb_neq. now apply Hpre.
    + now apply String.eqb_eq.
  - intros a rest Heq Hnone. rewrite Hloc. unfold physicalAddress.
    rewrite find_none_all.
    + now rewrite Heq.
    + intros b Hb. apply String.eqb_neq. now apply Hnone.
  - intros Heq. split.
    + rewrite Hloc, Heq. reflexivity.
    + subst location. unfold formatParkDetails.
      fold addresses. rewrite Heq. reflexivity.
  - intros Hne. rewrite Hloc. unfold physicalAddress.
    destruct addresses as [|a rest]; [contradiction|].
    destruct (find _ (a :: rest)); simpl; discriminate.
Qed.

Lemma address_prefers_physical_witness :
  prop "address"
    (prop "location"
       (formatParkDetails
          (samplePark "CA"
             [sampleAddress "Mailing" "PO Box 577";
              sampleAddress "Physical" "9035 Village Drive"])))
  = VObj [ ("line1", VStr "9035 Village Drive"); ("line2", VStr EmptyString);
           ("city", VStr "Yosemite"); ("stateCode", VStr "CA");
           ("postalCode", VStr "95389") ].
Proof.
  apply (proj1 (address_prefers_physical
                  (samplePark "CA"
                     [sampleAddress "Mailing" "PO Box 577";
                      sampleAddress "Physical" "9035 Village Drive"])))
    with (pre := [sampleAddress "Mailing" "PO Box 577"])
         (a := sampleAddress "Physical" "9035 Village Drive") (post := []).
  - reflexivity.
  - intros b [<-|[]]. discriminate.
  - reflexivity.
Defined.

(** C10. [formatParkData] and [formatAlertData] return an array as long as
    their input whose element at each position is a function of the input
    element at that position alone: no record is dropped, repeated or
    moved. *)
Theorem normalizers_are_pointwise :
  forall toLocaleDateString : string -> string,
    (exists g : ParkData.t -> Value,
        forall parkData : list ParkData.t,
          List.length (formatParkData parkData) = List.length parkData
          /\ forall i, nth_error (formatParkData parkData) i
                       = option_map g (nth_error parkData i))
    /\ (exists g : AlertData.t -> AlertSummary.t,
           forall alertData : list AlertData.t,
             List.length (formatAlertData toLocaleDateString alertData)
             = List.length alertData
             /\ forall i, nth_error (formatAlertData toLocaleDateString alertData) i
                          = option_map g (nth_error alertData i)).
Proof.
  intros f. split.
  - exists parkSummary. intros parkData. unfold formatParkData. split.
    + apply length_map.
    + intros i. apply nth_error_map.
  - exists (alertSummary f). intros alertData. unfold formatAlertData. split.
    + apply length_map.
    + intros i. apply nth_error_map.
Qed.

(** ** Running tasks *)

Lemma run_bind {A B : Type} (gw : Gateway) (t : Task A) (f : A -> Task B) :
  run gw (bind t f)
  = match run gw t with
    | (calls, inl e) => (calls, inl e)
    | (calls, inr a) =>
        let '(calls', r) := run gw (f a) in (calls ++ calls', r)
    end.
Proof.
  induction t as [a|e|path params k IH]; simpl.
  - now destruct (run gw (f a)).
  - reflexivity.
  - rewrite IH. destruct (run gw (k (gw path params))) as [calls [e|a]].
    + reflexivity.
    + now destruct (run gw (f a)).
Qed.

Lemma run_try_catch {A : Type} (gw : Gateway) (t : Task A) (h : Exn -> Task A) :
  run gw (try_catch t h)
  = match run gw t with
    | (calls, inr a) => (calls, inr a)
    | (calls, inl e) =>
        let '(calls', r) := run gw (h e) in (calls ++ calls', r)
    end.
Proof.
  induction t as [a|e|path params k IH]; simpl.
  - reflexivity.
  - now destruct (run gw (h e)).
  - rewrite IH. destruct (run gw (k (gw path params))) as [calls [e|a]].
    + now destruct (run gw (h e)).
    + reflexivity.
Qed.

(** The [catch] block returns a text block for every exception. *)
Lemma onError_returns (error : Exn) :
  exists v, onError error = Return (textResult (JSON_stringify2 v)).
Proof. destruct error; eexists; reflexivity. Qed.

(** ** getParkDetails *)

(** C3. A [getParkDetails] invocation issues one GET of [/parks] that
    carries the given [parkCode] and [limit = 1].  When the response has no
    [data] array or an empty one, the handler returns (it does not throw)
    the envelope whose [error] is [Park not found] and whose [message] ends
    with the requested code; otherwise it returns the detail mapping of the
    first record, with no [total], [limit] or [start] around it. *)
Theorem getParkDetails_first_record_or_not_found :
  forall (toLocaleDateString : string -> string) (gw : Gateway)
         (parkCode : string) (raw : Obj Value),
    own_get "parkCode" raw = Some (VStr parkCode) ->
    let request :=
      {| CallToolRequest.name := "getParkDetails";
         CallToolRequest.arguments := Some raw |} in
    let params := [("parkCode", VStr parkCode); ("limit", VNum (Int 1))] in
    fst (run gw (callTool toLocaleDateString request)) = [(Parks, params)]
    /\ forall response : Body Parks,
         gw Parks params = Fulfilled response ->
         snd (run gw (callTool toLocaleDateString request))
         = inr (textResult
                  (JSON_stringify2
                     match NPSResponse.data response with
                     | Some (park :: _) => formatParkDetails park
                     | _ =>
                         VObj [ ("error", VStr "Park not found");
                                ("message",
                                  VStr ("No park found with park code: "
                                          ++ parkCode)) ]
                     end)).
Proof.
  intros f gw parkCode raw Hraw request params.
  unfold callTool, request. simpl.
  unfold getParkDetails, GetParkDetailsSchema_parse, z_string.
  rewrite Hraw. simpl. fold params.
  destruct (gw Parks params) as [response|error] eqn:Hgw; simpl.
  - split.
    + now destruct response as [total limit start [[|park rest]|]].
    + intros response' Heq. injection Heq as <-.
      now destruct response as [total limit start [[|park rest]|]].
  - split.
    + now destruct error.
    + intros response' Heq. discriminate.
Qed.

(** ** findParks and getAlerts, step by step *)

Lemma includes_In (l : list string) (x : string) :
  includes l x = true <-> In x l.
Proof.
  unfold includes. rewrite existsb_exists. split.
  - intros [y [Hin Heq]]. apply String.eqb_eq in Heq. now subst.
  - intros Hin. exists x. split; [assumption|apply String.eqb_refl].
Qed.

(** What a [findParks] invocation does once its arguments have parsed. *)
Lemma findParks_run (toLocaleDateString : string -> string) (gw : Gateway)
  (raw : Obj Value) (args : FindParksArgs.t) :
  FindParksSchema_parse raw = Return args ->
  run gw (callTool toLocaleDateString
            {| CallToolRequest.name := "findParks";
               CallToolRequest.arguments := Some raw |})
  = let invalidStates := rejectedStates (FindParksArgs.stateCode args) in
    if (0 <? List.length invalidStates)%nat
    then ([], inr (textResult (JSON_stringify (invalidStatesEnvelope invalidStates))))
    else
      let requestParams :=
        requestParamsOf (FindParksArgs.limit args) (FindParksArgs.props args) in
      ([(Parks, requestParams)],
       match gw Parks requestParams with
       | Rejected error => snd (run gw (onError error))
       | Fulfilled response =>
           match NPSResponse.data response with
           | None => snd (run gw (onError mapOfUndefined))
           | Some parkData =>
               inr (textResult
                      (JSON_stringify2
                         (VObj [ ("total", VNum (parseInt (NPSResponse.total response)));
                                 ("limit", VNum (parseInt (NPSResponse.limit response)));
                                 ("start", VNum (parseInt (NPSResponse.start response)));
                                 ("parks", VArr (formatParkData parkData)) ])))
           end
       end).
Proof.
  intros Hparse. unfold callTool. simpl. unfold findParks.
  rewrite Hparse. simpl.
  destruct (0 <? List.length _)%nat; [reflexivity|].
  simpl. set (requestParams := requestParamsOf _ _).
  destruct (gw Parks requestParams) as [[total limit start [parkData|]]|error]; simpl.
  - reflexivity.
  - reflexivity.
  - now destruct error.
Qed.

(** What a [getAlerts] invocation does once its arguments have parsed. *)
Lemma getAlerts_run (toLocaleDateString : string -> string) (gw : Gateway)
  (raw : Obj Value) (args : GetAlertsArgs.t) :
  GetAlertsSchema_parse raw = Return args ->
  run gw (callTool toLocaleDateString
            {| CallToolRequest.name := "getAlerts";
               CallToolRequest.arguments := Some raw |})
  = let requestParams :=
      requestParamsOf (GetAlertsArgs.limit args) (GetAlertsArgs.props args) in
    ([(Alerts, requestParams)],
     match gw Alerts requestParams with
     | Rejected error => snd (run gw (onError error))
     | Fulfilled response =>
         match NPSResponse.data response with
         | None => snd (run gw (onError mapOfUndefined))
         | Some alertData =>
             let formattedAlerts := formatAlertData toLocaleDateString alertData in
             match groupAlerts formattedAlerts [] with
             | inl error => snd (run gw (onError error))
             | inr alertsByPark =>
                 inr (textResult
                        (JSON_stringify2
                           (VObj [ ("total", VNum (parseInt (NPSResponse.total response)));
                                   ("limit", VNum (parseInt (NPSResponse.limit response)));
                                   ("start", VNum (parseInt (NPSResponse.start response)));
                                   ("alerts", VArr (map AlertSummary.toValue formattedAlerts));
                                   ("alertsByPark", alertsByParkValue alertsByPark) ])))
             end
         end
     end).
Proof.
  intros Hparse. unfold callTool. simpl. unfold getAlerts.
  rewrite Hparse. simpl. set (requestParams := requestParamsOf _ _).
  destruct (gw Alerts requestParams) as [[total limit start [alertData|]]|error]; simpl.
  - destruct (groupAlerts _ _) as [error|alertsByPark]; simpl.
    + now destruct error.
    + reflexivity.
  - reflexivity.
  - now destruct error.
Qed.

Lemma getParkDetails_first_record_or_not_found_witness :
  fst (run emptyGateway
         (callTool sameText (request "getParkDetails" [("parkCode", VStr "zzzz")])))
  = [(Parks, [("parkCode", VStr "zzzz"); ("limit", VNum (Int 1))])].
Proof.
  exact (proj1 (getParkDetails_first_record_or_not_found sameText emptyGateway
                  "zzzz" [("parkCode", VStr "zzzz")] eq_refl)).
Defined.

(** ** The limit that reaches the gateway *)

(** The [limit] constant of the handlers is the clamped value. *)
Lemma effectiveLimit_clamps (limit : option Z) :
  effectiveLimit limit
  = match limit with
    | None => Int 10
    | Some l => if (l =? 0)%Z then Int 10 else Int (Z.min l 50)
    end.
Proof.
  destruct limit as [l|]; [|reflexivity].
  unfold effectiveLimit, truthy_number. now destruct (l =? 0)%Z.
Qed.

(** The spread of the parsed arguments comes after [limit] in the object
    literal, so a [limit] the caller supplied replaces the clamped one. *)
Lemma findParks_forwarded_limit (args : FindParksArgs.t) :
  own_get "limit"
    (requestParamsOf (FindParksArgs.limit args) (FindParksArgs.props args))
  = Some (VInt match FindParksArgs.limit args with Some l => l | None => 10 end).
Proof. destruct args as [[s|] [q|] [l|] [st|] [a|]]; reflexivity. Qed.

Lemma getAlerts_forwarded_limit (args : GetAlertsArgs.t) :
  own_get "limit"
    (requestParamsOf (GetAlertsArgs.limit args) (GetAlertsArgs.props args))
  = Some (VInt match GetAlertsArgs.limit args with Some l => l | None => 10 end).
Proof. destruct args as [[p|] [l|] [st|] [q|]]; reflexivity. Qed.

(** For every [limit] the caller supplies, that very number is the
    [limit] of the GET, whether or not it exceeds 50. *)
Lemma findParks_forwards_the_supplied_limit (toLocaleDateString : string -> string)
  (gw : Gateway) (raw : Obj Value) (args : FindParksArgs.t) (l : Z) :
  FindParksSchema_parse raw = Return args ->
  rejectedStates (FindParksArgs.stateCode args) = [] ->
  FindParksArgs.limit args = Some l ->
  exists params,
    fst (run gw (callTool toLocaleDateString (request "findParks" raw)))
    = [(Parks, params)]
    /\ own_get "limit" params = Some (VInt l).
Proof.
  intros Hp Hrej Hl. unfold request. rewrite (findParks_run _ gw raw args Hp).
  cbv zeta. rewrite Hrej. simpl. eexists. split; [reflexivity|].
  now rewrite findParks_forwarded_limit, Hl.
Qed.

(** C1, on the code.  A caller's [limit] of 100 reaches the gateway as 100,
    for [findParks] and for [getAlerts], although the handler has computed
    the clamped value 50; a [limit] of 7 is forwarded as it is and an absent
    one becomes 10. *)
Theorem limit_above_50_reaches_the_gateway :
  forall (toLocaleDateString : string -> string) (gw : Gateway),
    fst (run gw (callTool toLocaleDateString
                   (request "findParks" [("limit", VInt 100)])))
    = [(Parks, [("limit", VInt 100)])]
    /\ fst (run gw (callTool toLocaleDateString
                      (request "getAlerts" [("limit", VInt 100)])))
       = [(Alerts, [("limit", VInt 100)])]
    /\ effectiveLimit (Some 100%Z) = Int 50
    /\ fst (run gw (callTool toLocaleDateString
                      (request "findParks" [("limit", VInt 7)])))
       = [(Parks, [("limit", VInt 7)])]
    /\ fst (run gw (callTool toLocaleDateString (request "findParks" [])))
       = [(Parks, [("limit", VInt 10)])].
Proof.
  intros f gw. unfold request.
  rewrite (findParks_run f gw [("limit", VInt 100)] _ eq_refl).
  rewrite (getAlerts_run f gw [("limit", VInt 100)] _ eq_refl).
  rewrite (findParks_run f gw [("limit", VInt 7)] _ eq_refl).
  rewrite (findParks_run f gw [] _ eq_refl).
  repeat split.
Qed.

(** ** State codes *)

(** C2, at the empty string.  The only segment of an empty [stateCode] is
    the empty string, which is not a valid code, yet the handler calls the
    gateway; and the list of valid codes has 57 entries. *)
Lemma findParks_empty_stateCode_reaches_gateway :
  map (fun s => toUpperCase (trim s)) (split comma EmptyString) = [EmptyString]
  /\ includes STATE_CODES EmptyString = false
  /\ fst (run emptyGateway
            (callTool sameText (request "findParks" [("stateCode", VStr EmptyString)])))
     = [(Parks, [("limit", VInt 10); ("stateCode", VStr EmptyString)])]
  /\ List.length STATE_CODES = 57%nat.
Proof. repeat split. Qed.

(** C2, amended.  When the [stateCode] of a [findParks] invocation is a
    non-empty string of ASCII characters and one of its segments (split on
    commas, trimmed, upper-cased) is outside the 57 valid codes, no GET is
    issued and the handler returns the envelope whose [error] lists exactly
    the invalid segments, in their order and joined by a comma and a space,
    and whose [validStateCodes] is the whole list of valid codes. *)
Theorem findParks_rejects_invalid_state_codes :
  forall (toLocaleDateString : string -> string) (gw : Gateway)
         (raw : Obj Value) (args : FindParksArgs.t) (stateCode : string),
    FindParksSchema_parse raw = Return args ->
    FindParksArgs.stateCode args = Some stateCode ->
    stateCode <> EmptyString ->
    isAscii stateCode = true ->
    let segments := map (fun s => toUpperCase (trim s)) (split comma stateCode) in
    let invalid := filter (fun seg => negb (includes STATE_CODES seg)) segments in
    (exists seg, In seg segments /\ ~ In seg STATE_CODES) ->
    run gw (callTool toLocaleDateString (request "findParks" raw))
    = ([], inr (textResult
                  (JSON_stringify
                     (VObj [ ("error",
                               VStr ("Invalid state code(s): " ++ join ", " invalid));
                             ("validStateCodes", VArr (map VStr STATE_CODES)) ]))))
    /\ (forall seg, In seg invalid <-> In seg segments /\ ~ In seg STATE_CODES)
    /\ List.length STATE_CODES = 57%nat.
Proof.
  intros f gw raw args stateCode Hparse Hstate Hne _ segments invalid [seg [Hin Hout]].
  assert (Hspec : forall x, In x invalid <-> In x segments /\ ~ In x STATE_CODES).
  { intros x. unfold invalid. rewrite filter_In, negb_true_iff.
    split; intros [Hx Hno]; (split; [exact Hx|]).
    - intros Hyes. apply includes_In in Hyes. congruence.
    - destruct (includes STATE_CODES x) eqn:E; [|reflexivity].
      exfalso. apply Hno. now apply includes_In. }
  split; [|split; [exact Hspec|reflexivity]].
  unfold request. rewrite (findParks_run f gw raw args Hparse).
  rewrite Hstate. unfold rejectedStates.
  destruct stateCode as [|c r]; [contradiction|]. simpl truthy_string. cbv iota.
  change (invalidStatesOf (String c r)) with invalid.
  destruct invalid as [|x rest] eqn:Hinv.
  - exfalso. apply (proj2 (Hspec seg)). now split.
  - reflexivity.
Qed.

Lemma findParks_rejects_invalid_state_codes_witness :
  run emptyGateway (callTool sameText (request "findParks" [("stateCode", VStr "ca, xx,QQ")]))
  = ([], inr (textResult
                (JSON_stringify
                   (VObj [ ("error", VStr "Invalid state code(s): XX, QQ");
                           ("validStateCodes", VArr (map VStr STATE_CODES)) ])))).
Proof.
  refine (proj1 (findParks_rejects_invalid_state_codes sameText emptyGateway
                   [("stateCode", VStr "ca, xx,QQ")] _ "ca, xx,QQ"
                   eq_refl eq_refl _ eq_refl _)).
  - discriminate.
  - exists "XX". split.
    + simpl. tauto.
    + rewrite <- includes_In. discriminate.
Defined.

(** ** Nothing is thrown across the tool boundary *)

Lemma z_parse_cases {A : Type} (issues : list ZodIssue.t) (parsed : A) :
  z_parse issues parsed = Return parsed
  \/ exists errors, z_parse issues parsed = Throw (ZodError errors).
Proof. destruct issues; [now left|right; eexists; reflexivity]. Qed.

Lemma FindParksSchema_parse_cases (raw : Obj Value) :
  (exists args, FindParksSchema_parse raw = Return args)
  \/ exists errors, FindParksSchema_parse raw = Throw (ZodError errors).
Proof.
  unfold FindParksSchema_parse.
  destruct (z_string_optional "stateCode" raw), (z_string_optional "q" raw),
    (z_number_optional "limit" raw), (z_number_optional "start" raw),
    (z_string_optional "activities" raw).
  match goal with
  | |- context [z_parse ?i ?a] => destruct (z_parse_cases i a) as [H|H]
  end; [left; eexists; exact H|now right].
Qed.

Lemma GetAlertsSchema_parse_cases (raw : Obj Value) :
  (exists args, GetAlertsSchema_parse raw = Return args)
  \/ exists errors, GetAlertsSchema_parse raw = Throw (ZodError errors).
Proof.
  unfold GetAlertsSchema_parse.
  destruct (z_string_optional "parkCode" raw), (z_number_optional "limit" raw),
    (z_number_optional "start" raw), (z_string_optional "q" raw).
  match goal with
  | |- context [z_parse ?i ?a] => destruct (z_parse_cases i a) as [H|H]
  end; [left; eexists; exact H|now right].
Qed.

Lemma GetParkDetailsSchema_parse_cases (raw : Obj Value) :
  (exists args, GetParkDetailsSchema_parse raw = Return args)
  \/ exists errors, GetParkDetailsSchema_parse raw = Throw (ZodError errors).
Proof.
  unfold GetParkDetailsSchema_parse. destruct (z_string "parkCode" raw).
  match goal with
  | |- context [z_parse ?i ?a] => destruct (z_parse_cases i a) as [H|H]
  end; [left; eexists; exact H|now right].
Qed.

Ltac indented_text :=
  simpl; eexists; split; [reflexivity|left; eexists; reflexivity].

(** Whatever the request and whatever the gateway does, the handler returns
    one text block; its text is a value serialized with a two-space
    indentation, except for the envelope of the invalid state codes, which
    is serialized without indentation. *)
Lemma callTool_always_returns_text (toLocaleDateString : string -> string)
  (gw : Gateway) (req : CallToolRequest.t) :
  exists text,
    snd (run gw (callTool toLocaleDateString req)) = inr (textResult text)
    /\ handlerText text.
Proof.
  destruct req as [name [raw|]]; [|indented_text].
  destruct (String.eqb name "findParks") eqn:E1.
  { apply String.eqb_eq in E1; subst name.
    destruct (FindParksSchema_parse_cases raw) as [[args Hp]|[errors Hp]].
    - rewrite (findParks_run _ gw raw args Hp). cbv zeta.
      destruct (rejectedStates _) as [|x rest] eqn:Hrej; simpl.
      + destruct (gw Parks _) as [[total limit start [parkData|]]|error];
          [| |destruct error]; indented_text.
      + eexists. split; [reflexivity|right].
        exists (x :: rest). split; [discriminate|reflexivity].
    - unfold callTool. simpl. unfold findParks. rewrite Hp. indented_text. }
  destruct (String.eqb name "getParkDetails") eqn:E2.
  { unfold callTool. simpl. rewrite E1, E2. unfold getParkDetails.
    destruct (GetParkDetailsSchema_parse_cases raw) as [[args Hp]|[errors Hp]];
      rewrite Hp; simpl; [|indented_text].
    destruct (gw Parks _) as [[total limit start [[|park rest]|]]|error];
      [| | |destruct error]; indented_text. }
  destruct (String.eqb name "getAlerts") eqn:E3.
  { apply String.eqb_eq in E3; subst name.
    destruct (GetAlertsSchema_parse_cases raw) as [[args Hp]|[errors Hp]].
    - rewrite (getAlerts_run _ gw raw args Hp). cbv zeta. simpl snd.
      destruct (gw Alerts _) as [[total limit start [alertData|]]|error];
        [| |destruct error]; try indented_text.
      simpl. destruct (groupAlerts _ _) as [error|alertsByPark];
        [destruct error|]; indented_text.
    - unfold callTool. simpl. unfold getAlerts. rewrite Hp. indented_text. }
  unfold callTool. simpl. rewrite E1, E2, E3. indented_text.
Qed.

(** C4, on the code.  For a [findParks] invocation with the state code [XX]
    the handler returns one text block, but its text is the envelope
    serialized without indentation: it has no line break and differs from
    the two-space serialization of the same envelope, which every other
    return of the handler uses. *)
Theorem invalid_state_envelope_is_not_indented :
  forall (toLocaleDateString : string -> string) (gw : Gateway),
    let envelope :=
      VObj [ ("error", VStr "Invalid state code(s): XX");
             ("validStateCodes", VArr (map VStr STATE_CODES)) ] in
    run gw (callTool toLocaleDateString (request "findParks" [("stateCode", VStr "XX")]))
    = ([], inr (textResult (JSON_stringify envelope)))
    /\ occurs newline (JSON_stringify envelope) = false
    /\ occurs newline (JSON_stringify2 envelope) = true
    /\ JSON_stringify envelope <> JSON_stringify2 envelope.
Proof.
  intros f gw envelope. unfold request.
  rewrite (findParks_run f gw [("stateCode", VStr "XX")] _ eq_refl).
  assert (H1 : occurs newline (JSON_stringify envelope) = false) by (vm_compute; reflexivity).
  assert (H2 : occurs newline (JSON_stringify2 envelope) = true) by (vm_compute; reflexivity).
  repeat split; try assumption.
  intros Heq. rewrite Heq in H1. congruence.
Qed.

(** ** Integer parsing *)

Lemma isDigit_value (c : ascii) :
  isDigit c = true -> digitValue 10 c = Some (code c - 48)%N.
Proof.
  unfold isDigit, digitValue. intros H. rewrite H.
  apply andb_true_iff in H. destruct H as [H1 H2].
  apply N.leb_le in H1, H2.
  destruct (N.ltb_spec (code c - 48) 10); [reflexivity|lia].
Qed.

Lemma isDigit_differs (c d : ascii) :
  isDigit c = true -> isDigit d = false -> Ascii.eqb c d = false.
Proof.
  intros Hc Hd. destruct (Ascii.eqb_spec c d) as [->|]; congruence.
Qed.

Lemma isDigit_not_space (c : ascii) : isDigit c = true -> isWhiteSpace c = false.
Proof.
  unfold isDigit, isWhiteSpace. intros H.
  apply andb_true_iff in H. destruct H as [H1 H2]. apply N.leb_le in H1, H2.
  destruct (N.leb_spec (code c) 13); [lia|].
  destruct (N.eqb_spec (code c) 32); [lia|].
  now rewrite andb_false_r.
Qed.

Lemma digitsPrefix_decimal (s : string) (a : N) :
  allDigits s = true ->
  digitsPrefix 10 s (Some a)
  = Some (a * 10 ^ N.of_nat (String.length s) + decimalValue s)%N.
Proof.
  revert a. induction s as [|c r IH]; intros a H.
  - simpl. f_equal. rewrite N.mul_1_r. now rewrite N.add_0_r.
  - simpl in H. apply andb_true_iff in H. destruct H as [Hc Hr].
    cbn [digitsPrefix]. rewrite (isDigit_value c Hc), (IH _ Hr).
    cbn [decimalValue String.length]. rewrite Nat2N.inj_succ, N.pow_succ_r'.
    f_equal. ring.
Qed.

(** On a non-empty string of decimal digits, [parseInt] is the number the
    digits denote. *)
Lemma parseInt_decimal (s : string) :
  isDecimal s = true -> parseInt s = Int (Z.of_N (decimalValue s)).
Proof.
  unfold isDecimal. destruct s as [|c r]; [discriminate|].
  cbn [truthy_string andb allDigits]. intros H.
  apply andb_true_iff in H. destruct H as [Hc Hr].
  unfold parseInt. cbn [trimStart]. rewrite (isDigit_not_space c Hc).
  rewrite (isDigit_differs c "-" Hc eq_refl), (isDigit_differs c "+" Hc eq_refl).
  assert (Hradix :
            match r with
            | String cx r' =>
                if Ascii.eqb c "0" && (Ascii.eqb cx "x" || Ascii.eqb cx "X")
                then (16%N, r') else (10%N, String c r)
            | EmptyString => (10%N, String c r)
            end = (10%N, String c r)).
  { destruct r as [|cx r']; [reflexivity|].
    simpl in Hr. apply andb_true_iff in Hr. destruct Hr as [Hx _].
    rewrite (isDigit_differs cx "x" Hx eq_refl), (isDigit_differs cx "X" Hx eq_refl).
    now rewrite andb_false_r. }
  rewrite Hradix. cbn [digitsPrefix]. rewrite (isDigit_value c Hc).
  rewrite (digitsPrefix_decimal r _ Hr). cbn [decimalValue].
  rewrite Z.mul_1_l. f_equal; f_equal; try ring.
Qed.

(** C8, at an echo that is not a number.  When the upstream echoes the
    total as [N/A], the invocation succeeds and the [total] of the result is
    [NaN], which is serialized as [null]: neither an integer nor a JSON
    number. *)
Lemma findParks_total_not_a_number :
  run (stubGateway (sampleBody "N/A" (Some [])) (sampleBody "0" (Some [])))
    (callTool sameText (request "findParks" []))
  = ([(Parks, [("limit", VInt 10)])],
     inr (textResult
            (JSON_stringify2
               (VObj [ ("total", VNum NaN); ("limit", VInt 10);
                       ("start", VInt 0); ("parks", VArr []) ]))))
  /\ JSON_stringify2 (VNum NaN) = "null"
  /\ forall z, VNum NaN <> VInt z.
Proof. repeat split. discriminate. Qed.

Lemma units_digit_isDigit (n : N) : isDigit (ascii_of_N (48 + n mod 10)) = true.
Proof.
  assert (H : (n mod 10 < 10)%N) by (apply N.mod_upper_bound; discriminate).
  revert H. generalize (n mod 10)%N. intros d H.
  unfold isDigit, code. rewrite N_ascii_embedding by lia.
  apply andb_true_iff. split; apply N.leb_le; lia.
Qed.

Lemma digitsOf_head (fuel : nat) (n : N) (acc : string) :
  exists c r, digitsOf (S fuel) n acc = String c r /\ isDigit c = true.
Proof.
  revert n acc. induction fuel as [|fuel IH]; intros n acc.
  - exists (ascii_of_N (48 + n mod 10)), acc. split.
    + cbn [digitsOf]. now destruct (n <? 10)%N.
    + apply units_digit_isDigit.
  - change (digitsOf (S (S fuel)) n acc)
      with (if (n <? 10)%N then String (ascii_of_N (48 + n mod 10)) acc
            else digitsOf (S fuel) (n / 10)%N (String (ascii_of_N (48 + n mod 10)) acc)).
    destruct (n <? 10)%N.
    + exists (ascii_of_N (48 + n mod 10)), acc. split; [reflexivity|].
      apply units_digit_isDigit.
    + apply IH.
Qed.

(** The text of an integer is never the text of a string: it starts with a
    digit or a minus sign, a string with a quotation mark. *)
Lemma integer_is_not_quoted (z : Z) (s : string) : Z_toString z <> quote s.
Proof.
  unfold Z_toString, quote, N_toString.
  destruct (z <? 0)%Z; [discriminate|].
  destruct (digitsOf_head (N.to_nat (N.log2 (Z.abs_N z))) (Z.abs_N z) EmptyString)
    as [c [r [-> Hc]]].
  intros H. injection H as -> _. discriminate Hc.
Qed.

(** C8, amended.  For every successful [findParks] or [getAlerts]
    invocation whose upstream echoes [total], [limit] and [start] are
    non-empty strings of decimal digits denoting integers of at most 2^53,
    the [total], [limit] and [start] fields of the result are the integers
    those digits denote, next to one normalized entry per record; in the
    serialized result an integer is a JSON number, never the text of a
    string. *)
Theorem counts_are_integers_of_decimal_echoes :
  forall (toLocaleDateString : string -> string) (gw : Gateway),
    (forall raw args response parkData,
        FindParksSchema_parse raw = Return args ->
        rejectedStates (FindParksArgs.stateCode args) = [] ->
        gw Parks (requestParamsOf (FindParksArgs.limit args) (FindParksArgs.props args))
        = Fulfilled response ->
        NPSResponse.data response = Some parkData ->
        exactEcho (NPSResponse.total response) = true ->
        exactEcho (NPSResponse.limit response) = true ->
        exactEcho (NPSResponse.start response) = true ->
        exists parks : list Value,
          List.length parks = List.length parkData
          /\ snd (run gw (callTool toLocaleDateString (request "findParks" raw)))
             = inr (textResult
                      (JSON_stringify2
                         (VObj [ ("total",
                                   VInt (Z.of_N (decimalValue (NPSResponse.total response))));
                                 ("limit",
                                   VInt (Z.of_N (decimalValue (NPSResponse.limit response))));
                                 ("start",
                                   VInt (Z.of_N (decimalValue (NPSResponse.start response))));
                                 ("parks", VArr parks) ]))))
    /\ (forall raw args response alertData alertsByPark,
           GetAlertsSchema_parse raw = Return args ->
           gw Alerts (requestParamsOf (GetAlertsArgs.limit args) (GetAlertsArgs.props args))
           = Fulfilled response ->
           NPSResponse.data response = Some alertData ->
           groupAlerts (formatAlertData toLocaleDateString alertData) [] = inr alertsByPark ->
           exactEcho (NPSResponse.total response) = true ->
           exactEcho (NPSResponse.limit response) = true ->
           exactEcho (NPSResponse.start response) = true ->
           snd (run gw (callTool toLocaleDateString (request "getAlerts" raw)))
           = inr (textResult
                    (JSON_stringify2
                       (VObj [ ("total", VInt (Z.of_N (decimalValue (NPSResponse.total response))));
                               ("limit", VInt (Z.of_N (decimalValue (NPSResponse.limit response))));
                               ("start", VInt (Z.of_N (decimalValue (NPSResponse.start response))));
                               ("alerts",
                                 VArr (map AlertSummary.toValue
                                         (formatAlertData toLocaleDateString alertData)));
                               ("alertsByPark", alertsByParkValue alertsByPark) ]))))
    /\ forall (z : Z) (s gap indentation gap' indentation' : string),
         serialize gap indentation (VInt z) <> serialize gap' indentation' (VStr s).
Proof.
  intros f gw.
  assert (Hexact : forall s, exactEcho s = true -> isDecimal s = true).
  { intros s H. unfold exactEcho in H. now apply andb_true_iff in H. }
  split; [|split].
  - intros raw args [total limit start data] parkData Hp Hrej Hgw Hdata Ht Hl Hs.
    exists (formatParkData parkData).
    split; [unfold formatParkData; apply length_map|].
    simpl in *. subst data. unfold request.
    rewrite (findParks_run f gw raw args Hp). cbv zeta.
    rewrite Hrej. simpl. rewrite Hgw. simpl.
    now rewrite (parseInt_decimal _ (Hexact _ Ht)), (parseInt_decimal _ (Hexact _ Hl)),
      (parseInt_decimal _ (Hexact _ Hs)).
  - intros raw args [total limit start data] alertData alertsByPark
      Hp Hgw Hdata Hgroup Ht Hl Hs.
    simpl in *. subst data. unfold request.
    rewrite (getAlerts_run f gw raw args Hp). cbv zeta.
    simpl snd. rewrite Hgw. simpl. rewrite Hgroup.
    now rewrite (parseInt_decimal _ (Hexact _ Ht)), (parseInt_decimal _ (Hexact _ Hl)),
      (parseInt_decimal _ (Hexact _ Hs)).
  - intros z s gap ind gap' ind'.
    replace (serialize gap ind (VInt z)) with (Z_toString z)
      by (destruct gap, ind; reflexivity).
    replace (serialize gap' ind' (VStr s)) with (quote s)
      by (destruct gap', ind'; reflexivity).
    apply integer_is_not_quoted.
Qed.

Lemma counts_are_integers_of_decimal_echoes_witness :
  exists parks : list Value,
    List.length parks = 0%nat
    /\ snd (run (stubGateway (sampleBody "471" (Some [])) (sampleBody "0" (Some [])))
              (callTool sameText (request "findParks" [])))
       = inr (textResult
                (JSON_stringify2
                   (VObj [ ("total", VInt 471); ("limit", VInt 10); ("start", VInt 0);
                           ("parks", VArr parks) ]))).
Proof.
  exact (proj1 (counts_are_integers_of_decimal_echoes sameText
                  (stubGateway (sampleBody "471" (Some [])) (sampleBody "0" (Some []))))
           [] _ (sampleBody "471" (Some [])) []
           eq_refl eq_refl eq_refl eq_refl eq_refl eq_refl eq_refl).
Defined.

(** ** Grouping the alerts by park code *)

Lemma existsb_eqb_In (x : string) (l : list string) :
  existsb (String.eqb x) l = true <-> In x l.
Proof. exact (includes_In l x). Qed.

Lemma firstOccurrences_In (x : string) (l : list string) :
  In x (firstOccurrences l) <-> In x l.
Proof.
  induction l as [|y l IH]; simpl; [reflexivity|].
  rewrite filter_In, IH, negb_true_iff, String.eqb_neq.
  destruct (String.eqb_spec y x) as [->|Hne].
  - split; intros _; now left.
  - split; (intros [H|H]; [now left|right]); try tauto.
    split; [exact H|congruence].
Qed.

Lemma firstOccurrences_NoDup (l : list string) : NoDup (firstOccurrences l).
Proof.
  induction l as [|y l IH]; simpl; constructor.
  - rewrite filter_In, negb_true_iff, String.eqb_neq. tauto.
  - now apply NoDup_filter.
Qed.

Lemma firstOccurrences_snoc (l : list string) (x : string) :
  firstOccurrences (l ++ [x])
  = if existsb (String.eqb x) l then firstOccurrences l
    else firstOccurrences l ++ [x].
Proof.
  induction l as [|y l IH]; simpl; [reflexivity|].
  rewrite IH. destruct (String.eqb_spec x y) as [->|Hne]; simpl.
  - destruct (existsb (String.eqb y) l); [reflexivity|].
    rewrite filter_app. simpl. rewrite String.eqb_refl. simpl.
    now rewrite app_nil_r.
  - destruct (existsb (String.eqb x) l); [reflexivity|].
    rewrite filter_app. simpl.
    destruct (String.eqb_spec x y); [contradiction|reflexivity].
Qed.

Section Keyed.
Context {V : Type}.

Lemma own_get_map (F : string -> V) (k : string) (ks : list string) :
  own_get k (map (fun k' => (k', F k')) ks)
  = if existsb (String.eqb k) ks then Some (F k) else None.
Proof.
  induction ks as [|k' ks IH]; simpl; [reflexivity|].
  destruct (String.eqb_spec k k') as [->|]; [reflexivity|exact IH].
Qed.

Lemma overwrite_map (F : string -> V) (k : string) (v : V) (ks : list string) :
  NoDup ks ->
  overwrite k v (map (fun k' => (k', F k')) ks)
  = map (fun k' => (k', if String.eqb k' k then v else F k')) ks.
Proof.
  induction 1 as [|k' ks Hnot Hnd IH]; simpl; [reflexivity|].
  rewrite (String.eqb_sym k' k).
  destruct (String.eqb_spec k k') as [->|Hne].
  - f_equal. apply map_ext_in. intros k'' Hin.
    destruct (String.eqb_spec k'' k') as [->|]; [contradiction|reflexivity].
  - f_equal. exact IH.
Qed.

Lemma own_get_app_new (k : string) (v : V) (o : Obj V) :
  own_get k o = None -> own_get k (o ++ [(k, v)]) = Some v.
Proof.
  induction o as [|[k' v'] o IH]; simpl.
  - now rewrite String.eqb_refl.
  - destruct (String.eqb k k'); [discriminate|exact IH].
Qed.

Lemma overwrite_app_new (k : string) (v w : V) (o : Obj V) :
  own_get k o = None -> overwrite k w (o ++ [(k, v)]) = o ++ [(k, w)].
Proof.
  induction o as [|[k' v'] o IH]; simpl.
  - now rewrite String.eqb_refl.
  - destruct (String.eqb k k'); [discriminate|].
    intros H. f_equal. now apply IH.
Qed.

End Keyed.

Lemma alertsOf_snoc (k : string) (pre : list AlertSummary.t) (a : AlertSummary.t) :
  alertsOf k (pre ++ [a])
  = alertsOf k pre ++ (if String.eqb (AlertSummary.parkCode a) k then [a] else []).
Proof. unfold alertsOf. now rewrite filter_app. Qed.

Lemma alertsOf_absent (k : string) (pre : list AlertSummary.t) :
  existsb (String.eqb k) (map AlertSummary.parkCode pre) = false ->
  alertsOf k pre = [].
Proof.
  induction pre as [|b pre IH]; simpl; [reflexivity|].
  rewrite (String.eqb_sym (AlertSummary.parkCode b) k).
  destruct (String.eqb k (AlertSummary.parkCode b)); [discriminate|exact IH].
Qed.

(** One round of the loop extends the grouping by one alert. *)
Lemma groupAlert_grouped (pre : list AlertSummary.t) (a : AlertSummary.t) :
  plainKey (AlertSummary.parkCode a) = true ->
  groupAlert (grouped pre) a = inr (grouped (pre ++ [a])).
Proof.
  intros Hplain. unfold plainKey in Hplain.
  destruct (arrayIndex (AlertSummary.parkCode a)) eqn:Hidx; [discriminate|].
  apply negb_true_iff in Hplain.
  unfold groupAlert, grouped.
  set (k := AlertSummary.parkCode a) in *.
  set (ks := firstOccurrences (map AlertSummary.parkCode pre)).
  pose proof (firstOccurrences_NoDup (map AlertSummary.parkCode pre)) as Hnd.
  fold ks in Hnd.
  rewrite map_app. simpl map. fold k. rewrite firstOccurrences_snoc.
  rewrite (own_get_map (fun k' => alertsOf k' pre) k ks).
  assert (Hmem : existsb (String.eqb k) ks
                 = existsb (String.eqb k) (map AlertSummary.parkCode pre)).
  { apply eq_true_iff_eq. rewrite !existsb_eqb_In. apply firstOccurrences_In. }
  rewrite <- Hmem.
  destruct (existsb (String.eqb k) ks) eqn:Hin.
  - rewrite (own_get_map (fun k' => alertsOf k' pre) k ks), Hin.
    unfold own_set.
    rewrite (own_get_map (fun k' => alertsOf k' pre) k ks), Hin.
    rewrite (overwrite_map _ _ _ _ Hnd). f_equal.
    apply map_ext. intros k'. f_equal. rewrite alertsOf_snoc. fold k.
    rewrite (String.eqb_sym k' k).
    destruct (String.eqb_spec k k') as [->|]; [reflexivity|].
    now rewrite app_nil_r.
  - rewrite Hplain. symmetry in Hmem.
    set (o := map (fun k' => (k', alertsOf k' pre)) ks).
    assert (Hnone : own_get k o = None).
    { unfold o. now rewrite (own_get_map (fun k' => alertsOf k' pre) k ks), Hin. }
    assert (Hcreated : own_set k [] o = o ++ [(k, [])]).
    { unfold own_set. now rewrite Hnone, Hidx. }
    rewrite Hcreated, (own_get_app_new _ _ _ Hnone).
    unfold own_set. rewrite (own_get_app_new _ _ _ Hnone).
    rewrite (overwrite_app_new _ _ _ _ Hnone).
    rewrite map_app. simpl. f_equal. unfold o. f_equal.
    + apply map_ext_in. intros k' Hk'. f_equal. rewrite alertsOf_snoc. fold k.
      destruct (String.eqb_spec k k') as [->|]; [|now rewrite app_nil_r].
      exfalso. apply existsb_eqb_In in Hk'. fold ks in Hk'. congruence.
    + rewrite alertsOf_snoc. fold k. rewrite String.eqb_refl.
      now rewrite (alertsOf_absent k pre Hmem).
Qed.

Lemma groupAlerts_grouped (alerts pre : list AlertSummary.t) :
  forallb (fun a => plainKey (AlertSummary.parkCode a)) alerts = true ->
  groupAlerts alerts (grouped pre) = inr (grouped (pre ++ alerts)).
Proof.
  revert pre. induction alerts as [|a alerts IH]; intros pre H; simpl.
  - now rewrite app_nil_r.
  - simpl in H. apply andb_true_iff in H. destruct H as [Ha Hrest].
    rewrite (groupAlert_grouped pre a Ha), (IH _ Hrest).
    now rewrite <- app_assoc.
Qed.

(** C7, at a numeric park code and at an inherited name.  With alerts for
    the park codes [yose] and then [7], the key [7] comes first in
    [alertsByPark] although it occurred second; with a park code that names
    a property inherited from [Object.prototype], the invocation ends in the
    server-error envelope and has no [alertsByPark]. *)
Lemma alertsByPark_index_key_comes_first :
  let alertData := [sampleAlert "yose" "Danger"; sampleAlert "7" "Caution"] in
  let alerts := formatAlertData sameText alertData in
  run (stubGateway (sampleBody "0" (Some [])) (sampleBody "2" (Some alertData)))
    (callTool sameText (request "getAlerts" []))
  = ([(Alerts, [("limit", VInt 10)])],
     inr (textResult
            (JSON_stringify2
               (VObj [ ("total", VInt 2); ("limit", VInt 10); ("start", VInt 0);
                       ("alerts", VArr (map AlertSummary.toValue alerts));
                       ("alertsByPark",
                         VObj [ ("7", VArr (map AlertSummary.toValue (alertsOf "7" alerts)));
                                ("yose", VArr (map AlertSummary.toValue (alertsOf "yose" alerts))) ]) ]))))
  /\ firstOccurrences (map AlertSummary.parkCode alerts) = ["yose"; "7"]
  /\ groupAlerts alerts [] <> inr (grouped alerts)
  /\ snd (run (stubGateway (sampleBody "0" (Some []))
                 (sampleBody "1" (Some [sampleAlert "constructor" "Danger"])))
            (callTool sameText (request "getAlerts" [])))
     = inr (textResult
              (JSON_stringify2
                 (VObj [ ("error", VStr "Server error");
                         ("message",
                           VStr "alertsByPark[alert.parkCode].push is not a function") ]))).
Proof.
  repeat split. intros H. vm_compute in H. discriminate H.
Qed.

(** C7, amended.  For every [getAlerts] invocation whose GET is answered
    with a [data] array in which no park code is an array index or the name
    of a property inherited from [Object.prototype], the result is
    [{total, limit, start, alerts, alertsByPark}]: [alerts] is the flat list
    of normalized alerts and [alertsByPark] has one key per park code, in
    the order of first occurrence, each mapped to exactly the alerts of that
    park in their original relative order. *)
Theorem getAlerts_groups_by_park_code :
  forall (toLocaleDateString : string -> string) (gw : Gateway)
         (raw : Obj Value) (args : GetAlertsArgs.t)
         (response : Body Alerts) (alertData : list AlertData.t),
    GetAlertsSchema_parse raw = Return args ->
    gw Alerts (requestParamsOf (GetAlertsArgs.limit args) (GetAlertsArgs.props args))
    = Fulfilled response ->
    NPSResponse.data response = Some alertData ->
    (forall alert, In alert alertData -> plainKey (AlertData.parkCode alert) = true) ->
    let alerts := formatAlertData toLocaleDateString alertData in
    snd (run gw (callTool toLocaleDateString (request "getAlerts" raw)))
    = inr (textResult
             (JSON_stringify2
                (VObj [ ("total", VNum (parseInt (NPSResponse.total response)));
                        ("limit", VNum (parseInt (NPSResponse.limit response)));
                        ("start", VNum (parseInt (NPSResponse.start response)));
                        ("alerts", VArr (map AlertSummary.toValue alerts));
                        ("alertsByPark",
                          VObj (map (fun parkCode =>
                                       (parkCode,
                                        VArr (map AlertSummary.toValue
                                                (alertsOf parkCode alerts))))
                                  (firstOccurrences
                                     (map AlertData.parkCode alertData)))) ]))).
Proof.
  intros f gw raw args [total limit start data] alertData Hp Hgw Hdata Hplain alerts.
  simpl in Hdata. subst data. unfold request.
  rewrite (getAlerts_run f gw raw args Hp). cbv zeta. simpl snd.
  rewrite Hgw. simpl. fold alerts.
  assert (Hall : forallb (fun a => plainKey (AlertSummary.parkCode a)) alerts = true).
  { apply forallb_forall. intros a Ha. unfold alerts, formatAlertData in Ha.
    apply in_map_iff in Ha. destruct Ha as [alert [<- Hin]]. now apply Hplain. }
  pose proof (groupAlerts_grouped alerts [] Hall) as Hgroup.
  change (grouped []) with (@nil (string * list AlertSummary.t)) in Hgroup.
  rewrite Hgroup. simpl app. unfold alertsByParkValue, grouped.
  rewrite map_map. simpl.
  assert (Hcodes : map AlertSummary.parkCode alerts = map AlertData.parkCode alertData).
  { unfold alerts, formatAlertData. rewrite map_map. reflexivity. }
  now rewrite Hcodes.
Qed.

Lemma getAlerts_groups_by_park_code_witness :
  let alerts := formatAlertData sameText fiveAlerts in
  snd (run (stubGateway (sampleBody "0" (Some [])) (sampleBody "5" (Some fiveAlerts)))
         (callTool sameText (request "getAlerts" [("parkCode", VStr "yose,grca")])))
  = inr (textResult
           (JSON_stringify2
              (VObj [ ("total", VInt 5); ("limit", VInt 10); ("start", VInt 0);
                      ("alerts", VArr (map AlertSummary.toValue alerts));
                      ("alertsByPark",
                        VObj [ ("yose",
                                 VArr (map AlertSummary.toValue
                                         (map (alertSummary sameText)
                                            [ sampleAlert "yose" "Danger";
                                              sampleAlert "yose" "Information";
                                              sampleAlert "yose" "Wildlife" ])));
                               ("grca",
                                 VArr (map AlertSummary.toValue
                                         (map (alertSummary sameText)
                                            [ sampleAlert "grca" "Caution";
                                              sampleAlert "grca" "Park Closure" ]))) ]) ]))).
Proof.
  refine (getAlerts_groups_by_park_code sameText
            (stubGateway (sampleBody "0" (Some [])) (sampleBody "5" (Some fiveAlerts)))
            [("parkCode", VStr "yose,grca")] _ (sampleBody "5" (Some fiveAlerts))
            fiveAlerts eq_refl eq_refl eq_refl _).
  intros alert Hin. simpl in Hin.
  repeat (destruct Hin as [<-|Hin]; [reflexivity|]). contradiction.
Defined.

(** * Further properties of the handler *)

(** ** Dispatch and containment *)

Ltac one_text_block :=
  simpl; do 2 eexists; split; [reflexivity|first [now left|right; eexists; reflexivity]].

(** X1. Whatever the request and whatever the gateway answers, an invocation
    returns exactly one text block without throwing, and issues at most one
    GET: none, or one on [/alerts] for [getAlerts] and on [/parks] for the
    other tools. *)
Theorem every_invocation_one_text_block_at_most_one_GET :
  forall (toLocaleDateString : string -> string) (gw : Gateway)
         (req : CallToolRequest.t),
  exists calls text,
    run gw (callTool toLocaleDateString req) = (calls, inr (textResult text))
    /\ (calls = []
        \/ exists params,
             calls = [(if String.eqb (CallToolRequest.name req) "getAlerts"
                       then Alerts else Parks, params)]).
Proof.
  intros f gw [name [raw|]]; [|one_text_block].
  destruct (String.eqb name "findParks") eqn:E1.
  { apply String.eqb_eq in E1; subst name.
    destruct (FindParksSchema_parse_cases raw) as [[args Hp]|[errors Hp]].
    - rewrite (findParks_run _ gw raw args Hp). cbv zeta.
      destruct (rejectedStates _) as [|x rest]; [|one_text_block].
      simpl. destruct (gw Parks _) as [[total limit start [parkData|]]|error];
        [| |destruct error]; one_text_block.
    - unfold callTool. simpl. unfold findParks. rewrite Hp. one_text_block. }
  destruct (String.eqb name "getParkDetails") eqn:E2.
  { apply String.eqb_eq in E2; subst name.
    unfold callTool. simpl. unfold getParkDetails.
    destruct (GetParkDetailsSchema_parse_cases raw) as [[args Hp]|[errors Hp]];
      rewrite Hp; simpl; [|one_text_block].
    destruct (gw Parks _) as [[total limit start [[|park rest]|]]|error];
      [| | |destruct error]; one_text_block. }
  destruct (String.eqb name "getAlerts") eqn:E3.
  { apply String.eqb_eq in E3; subst name.
    destruct (GetAlertsSchema_parse_cases raw) as [[args Hp]|[errors Hp]].
    - rewrite (getAlerts_run _ gw raw args Hp). cbv zeta.
      destruct (gw Alerts _) as [[total limit start [alertData|]]|error];
        [| |destruct error]; try one_text_block.
      simpl. destruct (groupAlerts _ _) as [error|alertsByPark];
        [destruct error|]; one_text_block.
    - unfold callTool. simpl. unfold getAlerts. rewrite Hp. one_text_block. }
  unfold callTool. simpl. rewrite E1, E2, E3. one_text_block.
Qed.

(** X2. A request that carries no argument object is answered with the
    server-error envelope [Arguments are required], whatever its tool name
    is: the arguments are checked before the name.  A request with
    arguments whose tool name the tool list does not advertise is answered
    with the server-error envelope [Unknown tool: <name>].  No GET is
    issued in either case. *)
Theorem dispatch_errors_are_server_errors :
  forall (toLocaleDateString : string -> string) (gw : Gateway) (name : string),
    run gw (callTool toLocaleDateString
              {| CallToolRequest.name := name; CallToolRequest.arguments := None |})
    = ([], inr (serverError "Arguments are required"))
    /\ forall raw : Obj Value,
         ~ In name (map Tool.name listTools) ->
         run gw (callTool toLocaleDateString (request name raw))
         = ([], inr (serverError ("Unknown tool: " ++ name))).
Proof.
  intros f gw name. split; [reflexivity|].
  intros raw Hnot. unfold callTool, request. simpl in *.
  destruct (String.eqb_spec name "findParks") as [->|_]; [tauto|].
  destruct (String.eqb_spec name "getParkDetails") as [->|_]; [tauto|].
  destruct (String.eqb_spec name "getAlerts") as [->|_]; [tauto|].
  reflexivity.
Qed.

Lemma dispatch_errors_are_server_errors_witness :
  run emptyGateway (callTool sameText (request "getWeather" [("parkCode", VStr "yose")]))
  = ([], inr (serverError "Unknown tool: getWeather")).
Proof.
  apply (proj2 (dispatch_errors_are_server_errors sameText emptyGateway "getWeather")).
  simpl. intros [H|[H|[H|[]]]]; discriminate H.
Defined.

(** X3. When the one GET of an invocation is rejected, the invocation is
    answered with the server-error envelope: it carries the message of the
    error when the rejection is an [Error], and [Unknown error] when it is
    another value.  The GET is not repeated. *)
Theorem upstream_failure_is_a_server_error :
  forall (toLocaleDateString : string -> string) (gw : Gateway)
         (req : CallToolRequest.t) (path : Endpoint) (params : Obj Value),
    In (path, params) (fst (run gw (callTool toLocaleDateString req))) ->
    (forall message,
        gw path params = Rejected (Error message) ->
        run gw (callTool toLocaleDateString req)
        = ([(path, params)], inr (serverError message)))
    /\ (forall v,
           gw path params = Rejected (Thrown v) ->
           run gw (callTool toLocaleDateString req)
           = ([(path, params)], inr (serverError "Unknown error"))).
Proof.
  intros f gw [name [raw|]] path params Hin; [|destruct Hin].
  destruct (String.eqb name "findParks") eqn:E1.
  { apply String.eqb_eq in E1; subst name.
    destruct (FindParksSchema_parse_cases raw) as [[args Hp]|[errors Hp]].
    - rewrite (findParks_run _ gw raw args Hp) in *. cbv zeta in *.
      destruct (0 <? _)%nat; [destruct Hin|].
      destruct Hin as [Heq|[]]. injection Heq as <- <-.
      split; intros x Hgw; rewrite Hgw; reflexivity.
    - unfold callTool in Hin. simpl in Hin. unfold findParks in Hin.
      rewrite Hp in Hin. destruct Hin. }
  destruct (String.eqb name "getParkDetails") eqn:E2.
  { apply String.eqb_eq in E2; subst name.
    unfold callTool in *. simpl in *. unfold getParkDetails in *.
    destruct (GetParkDetailsSchema_parse_cases raw) as [[args Hp]|[errors Hp]];
      rewrite Hp in *; simpl in *; [|destruct Hin].
    assert (Heq : (Parks, [("parkCode", VStr (GetParkDetailsArgs.parkCode args));
                           ("limit", VNum (Int 1))]) = (path, params)).
    { destruct (gw Parks _) as [[total limit start [[|park rest]|]]|error];
        [| | |destruct error]; simpl in Hin; destruct Hin as [H|[]]; exact H. }
    injection Heq as <- <-.
    split; intros x Hgw; rewrite Hgw; reflexivity. }
  destruct (String.eqb name "getAlerts") eqn:E3.
  { apply String.eqb_eq in E3; subst name.
    destruct (GetAlertsSchema_parse_cases raw) as [[args Hp]|[errors Hp]].
    - rewrite (getAlerts_run _ gw raw args Hp) in *. cbv zeta in *.
      destruct Hin as [Heq|[]]. injection Heq as <- <-.
      split; intros x Hgw; rewrite Hgw; reflexivity.
    - unfold callTool in Hin. simpl in Hin. unfold getAlerts in Hin.
      rewrite Hp in Hin. destruct Hin. }
  unfold callTool in Hin. simpl in Hin. rewrite E1, E2, E3 in Hin. destruct Hin.
Qed.

Lemma upstream_failure_is_a_server_error_witness :
  run (failingGateway (Error "Request failed with status code 429"))
    (callTool sameText (request "getAlerts" [("parkCode", VStr "yose")]))
  = ([(Alerts, [("limit", VInt 10); ("parkCode", VStr "yose")])],
     inr (serverError "Request failed with status code 429")).
Proof.
  apply (proj1 (upstream_failure_is_a_server_error sameText
                  (failingGateway (Error "Request failed with status code 429"))
                  (request "getAlerts" [("parkCode", VStr "yose")])
                  Alerts [("limit", VInt 10); ("parkCode", VStr "yose")]
                  (or_introl eq_refl))).
  reflexivity.
Defined.

(** X4. When the body of a fulfilled GET has no [data] array, [findParks]
    and [getAlerts] do not treat it as an empty list: the invocation is
    answered with a server-error envelope. *)
Theorem body_without_data_is_a_server_error :
  forall (toLocaleDateString : string -> string) (gw : Gateway) (raw : Obj Value),
    (forall args response,
        FindParksSchema_parse raw = Return args ->
        rejectedStates (FindParksArgs.stateCode args) = [] ->
        gw Parks (requestParamsOf (FindParksArgs.limit args) (FindParksArgs.props args))
        = Fulfilled response ->
        NPSResponse.data response = None ->
        exists message,
          snd (run gw (callTool toLocaleDateString (request "findParks" raw)))
          = inr (serverError message))
    /\ (forall args response,
           GetAlertsSchema_parse raw = Return args ->
           gw Alerts (requestParamsOf (GetAlertsArgs.limit args) (GetAlertsArgs.props args))
           = Fulfilled response ->
           NPSResponse.data response = None ->
           exists message,
             snd (run gw (callTool toLocaleDateString (request "getAlerts" raw)))
             = inr (serverError message)).
Proof.
  intros f gw raw. split.
  - intros args [total limit start data] Hp Hrej Hgw Hdata. simpl in Hdata. subst data.
    unfold request. rewrite (findParks_run f gw raw args Hp). cbv zeta.
    rewrite Hrej. simpl. rewrite Hgw. simpl. eexists. reflexivity.
  - intros args [total limit start data] Hp Hgw Hdata. simpl in Hdata. subst data.
    unfold request. rewrite (getAlerts_run f gw raw args Hp). cbv zeta.
    simpl snd. rewrite Hgw. simpl. eexists. reflexivity.
Qed.

Lemma body_without_data_is_a_server_error_witness :
  exists message,
    snd (run (stubGateway (sampleBody "0" None) (sampleBody "0" None))
           (callTool sameText (request "findParks" [])))
    = inr (serverError message).
Proof.
  exact (proj1 (body_without_data_is_a_server_error sameText
                  (stubGateway (sampleBody "0" None) (sampleBody "0" None)) [])
           _ (sampleBody "0" None) eq_refl eq_refl eq_refl eq_refl).
Defined.

(** ** Argument validation *)

Lemma z_parse_Return {A : Type} (issues : list ZodIssue.t) (parsed a : A) :
  z_parse issues parsed = Return a -> issues = [] /\ parsed = a.
Proof.
  destruct issues; simpl; intros H; [|discriminate].
  injection H as ->. now split.
Qed.

Lemma z_parse_Throw {A : Type} (issues : list ZodIssue.t) (parsed : A) :
  issues <> [] -> z_parse issues parsed = Throw (ZodError issues).
Proof. destruct issues; [contradiction|reflexivity]. Qed.

Lemma z_string_optional_issues (key : string) (raw : Obj Value) :
  fst (z_string_optional key raw)
  = if offending raw (key, isString)
    then [invalid_type key "string"
            match own_get key raw with Some v => v | None => VUndefined end]
    else [].
Proof.
  unfold z_string_optional, z_string, offending. simpl.
  destruct (own_get key raw) as [[| | |[]| | |]|]; reflexivity.
Qed.

Lemma z_number_optional_issues (key : string) (raw : Obj Value) :
  fst (z_number_optional key raw)
  = if offending raw (key, isNumber)
    then [invalid_type key "number"
            match own_get key raw with Some v => v | None => VUndefined end]
    else [].
Proof.
  unfold z_number_optional, offending. simpl.
  destruct (own_get key raw) as [[| | |[]| | |]|]; reflexivity.
Qed.

Lemma z_string_optional_value (key : string) (raw : Obj Value) (x : option string) :
  z_string_optional key raw = ([], x) -> own_get key raw = option_map VStr x.
Proof.
  unfold z_string_optional, z_string.
  destruct (own_get key raw) as [[| | |[]| | |]|]; intros H;
    try discriminate H; now injection H as <-.
Qed.

Lemma z_number_optional_value (key : string) (raw : Obj Value) (x : option Z) :
  z_number_optional key raw = ([], x) -> own_get key raw = option_map VInt x.
Proof.
  unfold z_number_optional.
  destruct (own_get key raw) as [[| | |[]| | |]|]; intros H;
    try discriminate H; now injection H as <-.
Qed.

Lemma schema_parse_issues (raw : Obj Value) :
  (schemaIssues FindParksSchema raw <> [] ->
   FindParksSchema_parse raw = Throw (ZodError (schemaIssues FindParksSchema raw)))
  /\ (schemaIssues GetParkDetailsSchema raw <> [] ->
      GetParkDetailsSchema_parse raw
      = Throw (ZodError (schemaIssues GetParkDetailsSchema raw)))
  /\ (schemaIssues GetAlertsSchema raw <> [] ->
      GetAlertsSchema_parse raw = Throw (ZodError (schemaIssues GetAlertsSchema raw))).
Proof.
  unfold schemaIssues, FindParksSchema_parse, GetParkDetailsSchema_parse,
    GetAlertsSchema_parse.
  destruct (z_string_optional "stateCode" raw), (z_string_optional "q" raw),
    (z_number_optional "limit" raw), (z_number_optional "start" raw),
    (z_string_optional "activities" raw), (z_string "parkCode" raw),
    (z_string_optional "parkCode" raw).
  simpl. repeat split; apply z_parse_Throw.
Qed.

Lemma schema_parse_ok (raw : Obj Value) :
  (schemaIssues FindParksSchema raw = [] ->
   exists args, FindParksSchema_parse raw = Return args)
  /\ (schemaIssues GetAlertsSchema raw = [] ->
      exists args, GetAlertsSchema_parse raw = Return args).
Proof.
  unfold schemaIssues, FindParksSchema_parse, GetAlertsSchema_parse.
  destruct (z_string_optional "stateCode" raw), (z_string_optional "q" raw),
    (z_number_optional "limit" raw), (z_number_optional "start" raw),
    (z_string_optional "activities" raw), (z_string_optional "parkCode" raw).
  simpl. split; intros ->; eexists; reflexivity.
Qed.

Lemma FindParks_issue_paths (raw : Obj Value) :
  map ZodIssue.path (schemaIssues FindParksSchema raw)
  = offendingKeys FindParksKeys raw.
Proof.
  unfold schemaIssues, offendingKeys, FindParksKeys.
  rewrite !z_string_optional_issues, !z_number_optional_issues. cbn [filter].
  destruct (offending raw ("stateCode", isString)),
    (offending raw ("q", isString)), (offending raw ("limit", isNumber)),
    (offending raw ("start", isNumber)), (offending raw ("activities", isString));
    reflexivity.
Qed.

Lemma GetAlerts_issue_paths (raw : Obj Value) :
  map ZodIssue.path (schemaIssues GetAlertsSchema raw)
  = offendingKeys GetAlertsKeys raw.
Proof.
  unfold schemaIssues, offendingKeys, GetAlertsKeys.
  rewrite !z_string_optional_issues, !z_number_optional_issues. cbn [filter].
  destruct (offending raw ("parkCode", isString)),
    (offending raw ("limit", isNumber)), (offending raw ("start", isNumber)),
    (offending raw ("q", isString)); reflexivity.
Qed.

Lemma map_not_nil {A B : Type} (g : A -> B) (l : list A) :
  map g l <> [] -> l <> [].
Proof. now destruct l. Qed.

(** X5. For [findParks] and [getAlerts]: when an argument of the schema is
    supplied with a value of the wrong type, the invocation is answered with
    the validation-error envelope, whose details name exactly the offending
    keys, each once and in the order of the schema, and no GET is issued;
    when no supplied argument offends, the arguments parse (keys outside the
    schema never offend). *)
Theorem wrong_argument_types_are_listed :
  forall (toLocaleDateString : string -> string) (gw : Gateway) (raw : Obj Value),
    (offendingKeys FindParksKeys raw <> [] ->
     exists errors,
       run gw (callTool toLocaleDateString (request "findParks" raw))
       = ([], inr (validationError errors))
       /\ map ZodIssue.path errors = offendingKeys FindParksKeys raw)
    /\ (offendingKeys GetAlertsKeys raw <> [] ->
        exists errors,
          run gw (callTool toLocaleDateString (request "getAlerts" raw))
          = ([], inr (validationError errors))
          /\ map ZodIssue.path errors = offendingKeys GetAlertsKeys raw)
    /\ (offendingKeys FindParksKeys raw = [] ->
        exists args, FindParksSchema_parse raw = Return args)
    /\ (offendingKeys GetAlertsKeys raw = [] ->
        exists args, GetAlertsSchema_parse raw = Return args).
Proof.
  intros f gw raw.
  destruct (schema_parse_issues raw) as [Hfind [_ Halerts]].
  destruct (schema_parse_ok raw) as [Hfind_ok Halerts_ok].
  split; [|split; [|split]].
  - intros Hne. exists (schemaIssues FindParksSchema raw).
    split; [|apply FindParks_issue_paths].
    rewrite <- FindParks_issue_paths in Hne. apply map_not_nil in Hne.
    unfold callTool, request. simpl. unfold findParks.
    now rewrite (Hfind Hne).
  - intros Hne. exists (schemaIssues GetAlertsSchema raw).
    split; [|apply GetAlerts_issue_paths].
    rewrite <- GetAlerts_issue_paths in Hne. apply map_not_nil in Hne.
    unfold callTool, request. simpl. unfold getAlerts.
    now rewrite (Halerts Hne).
  - intros Hnil. apply Hfind_ok. rewrite <- FindParks_issue_paths in Hnil.
    now apply map_eq_nil in Hnil.
  - intros Hnil. apply Halerts_ok. rewrite <- GetAlerts_issue_paths in Hnil.
    now apply map_eq_nil in Hnil.
Qed.

Lemma wrong_argument_types_are_listed_witness :
  exists errors,
    run emptyGateway
      (callTool sameText
         (request "findParks"
            [("limit", VStr "ten"); ("q", VStr "lake"); ("stateCode", VInt 6)]))
    = ([], inr (validationError errors))
    /\ map ZodIssue.path errors = ["stateCode"; "limit"].
Proof.
  apply (proj1 (wrong_argument_types_are_listed sameText emptyGateway
                  [("limit", VStr "ten"); ("q", VStr "lake"); ("stateCode", VInt 6)])).
  discriminate.
Defined.

(** X6. A [getParkDetails] invocation whose [parkCode] is missing or is not
    a string is answered with the validation-error envelope holding one
    issue on [parkCode], whose message is [Required] when the key is
    missing, and no GET is issued. *)
Theorem getParkDetails_requires_a_string_parkCode :
  forall (toLocaleDateString : string -> string) (gw : Gateway) (raw : Obj Value),
    (forall s, own_get "parkCode" raw <> Some (VStr s)) ->
    let issue :=
      {| ZodIssue.expected := "string";
         ZodIssue.received :=
           parsedType match own_get "parkCode" raw with
                      | Some v => v
                      | None => VUndefined
                      end;
         ZodIssue.path := "parkCode" |} in
    run gw (callTool toLocaleDateString (request "getParkDetails" raw))
    = ([], inr (validationError [issue]))
    /\ (own_get "parkCode" raw = None ->
        prop "message" (issueValue issue) = VStr "Required").
Proof.
  intros f gw raw Hnot issue. split.
  - unfold callTool, request. simpl.
    unfold getParkDetails, GetParkDetailsSchema_parse, z_string. subst issue.
    destruct (own_get "parkCode" raw) as [[| | |[]| | |]|]; try reflexivity.
    exfalso. now apply (Hnot s).
  - intros Hnone. subst issue. now rewrite Hnone.
Qed.

Lemma getParkDetails_requires_a_string_parkCode_witness :
  run emptyGateway (callTool sameText (request "getParkDetails" [("code", VStr "yose")]))
  = ([], inr (validationError
                [ {| ZodIssue.expected := "string"; ZodIssue.received := "undefined";
                     ZodIssue.path := "parkCode" |} ])).
Proof.
  apply (proj1 (getParkDetails_requires_a_string_parkCode sameText emptyGateway
                  [("code", VStr "yose")] (fun s H => ltac:(discriminate H)))).
Defined.

(** X7. The dispatcher validates the arguments of every advertised tool
    against the schema the tool list advertises for it: when that schema
    raises issues on the argument object, the invocation is answered with
    the validation-error envelope of exactly those issues and no GET is
    issued; the advertised names are pairwise distinct. *)
Theorem advertised_schema_is_enforced :
  forall (toLocaleDateString : string -> string) (gw : Gateway)
         (tool : Tool.t) (raw : Obj Value),
    In tool listTools ->
    schemaIssues (Tool.inputSchema tool) raw <> [] ->
    run gw (callTool toLocaleDateString (request (Tool.name tool) raw))
    = ([], inr (validationError (schemaIssues (Tool.inputSchema tool) raw)))
    /\ NoDup (map Tool.name listTools).
Proof.
  intros f gw tool raw Hin Hne.
  destruct (schema_parse_issues raw) as [Hfind [Hdetails Halerts]].
  split.
  - unfold callTool, request.
    destruct Hin as [<-|[<-|[<-|[]]]]; simpl in *.
    + unfold findParks. now rewrite (Hfind Hne).
    + unfold getParkDetails. now rewrite (Hdetails Hne).
    + unfold getAlerts. now rewrite (Halerts Hne).
  - simpl. repeat constructor; simpl; intuition discriminate.
Qed.

Lemma advertised_schema_is_enforced_witness :
  run emptyGateway (callTool sameText (request "getAlerts" [("limit", VStr "5")]))
  = ([], inr (validationError
                [ {| ZodIssue.expected := "number"; ZodIssue.received := "string";
                     ZodIssue.path := "limit" |} ])).
Proof.
  refine (proj1 (advertised_schema_is_enforced sameText emptyGateway
                   {| Tool.name := "getAlerts";
                      Tool.description :=
                        "Get current alerts for national parks including closures, hazards, and important information";
                      Tool.inputSchema := GetAlertsSchema |}
                   [("limit", VStr "5")] _ _)).
  - simpl. tauto.
  - discriminate.
Defined.

Lemma FindParksSchema_parse_fields (raw : Obj Value) (args : FindParksArgs.t) :
  FindParksSchema_parse raw = Return args ->
  own_get "stateCode" raw = option_map VStr (FindParksArgs.stateCode args)
  /\ own_get "q" raw = option_map VStr (FindParksArgs.q args)
  /\ own_get "limit" raw = option_map VInt (FindParksArgs.limit args)
  /\ own_get "start" raw = option_map VInt (FindParksArgs.start args)
  /\ own_get "activities" raw = option_map VStr (FindParksArgs.activities args).
Proof.
  unfold FindParksSchema_parse.
  destruct (z_string_optional "stateCode" raw) as [e1 x1] eqn:H1,
    (z_string_optional "q" raw) as [e2 x2] eqn:H2,
    (z_number_optional "limit" raw) as [e3 x3] eqn:H3,
    (z_number_optional "start" raw) as [e4 x4] eqn:H4,
    (z_string_optional "activities" raw) as [e5 x5] eqn:H5.
  intros H. apply z_parse_Return in H. destruct H as [Hnil <-].
  apply app_eq_nil in Hnil. destruct Hnil as [-> Hnil].
  apply app_eq_nil in Hnil. destruct Hnil as [-> Hnil].
  apply app_eq_nil in Hnil. destruct Hnil as [-> Hnil].
  apply app_eq_nil in Hnil. destruct Hnil as [-> ->]. simpl.
  repeat split;
    first [now apply z_string_optional_value|now apply z_number_optional_value].
Qed.

Lemma GetAlertsSchema_parse_fields (raw : Obj Value) (args : GetAlertsArgs.t) :
  GetAlertsSchema_parse raw = Return args ->
  own_get "parkCode" raw = option_map VStr (GetAlertsArgs.parkCode args)
  /\ own_get "limit" raw = option_map VInt (GetAlertsArgs.limit args)
  /\ own_get "start" raw = option_map VInt (GetAlertsArgs.start args)
  /\ own_get "q" raw = option_map VStr (GetAlertsArgs.q args).
Proof.
  unfold GetAlertsSchema_parse.
  destruct (z_string_optional "parkCode" raw) as [e1 x1] eqn:H1,
    (z_number_optional "limit" raw) as [e2 x2] eqn:H2,
    (z_number_optional "start" raw) as [e3 x3] eqn:H3,
    (z_string_optional "q" raw) as [e4 x4] eqn:H4.
  intros H. apply z_parse_Return in H. destruct H as [Hnil <-].
  apply app_eq_nil in Hnil. destruct Hnil as [-> Hnil].
  apply app_eq_nil in Hnil. destruct Hnil as [-> Hnil].
  apply app_eq_nil in Hnil. destruct Hnil as [-> ->]. simpl.
  repeat split;
    first [now apply z_string_optional_value|now apply z_number_optional_value].
Qed.

Lemma own_get_In {V : Type} (k : string) (o : Obj V) :
  own_get k o <> None -> In k (map fst o).
Proof.
  induction o as [|[k' v] o IH]; simpl; [congruence|].
  destruct (String.eqb_spec k k') as [->|_]; [now left|].
  intros H. right. now apply IH.
Qed.

(** What the GET of a [findParks] invocation carries. *)
Lemma findParks_params (toLocaleDateString : string -> string) (gw : Gateway)
  (raw params : Obj Value) :
  fst (run gw (callTool toLocaleDateString (request "findParks" raw)))
  = [(Parks, params)] ->
  exists args,
    FindParksSchema_parse raw = Return args
    /\ rejectedStates (FindParksArgs.stateCode args) = []
    /\ params = requestParamsOf (FindParksArgs.limit args) (FindParksArgs.props args).
Proof.
  intros Hcalls. unfold request in Hcalls.
  destruct (FindParksSchema_parse_cases raw) as [[args Hp]|[errors Hp]].
  - rewrite (findParks_run _ gw raw args Hp) in Hcalls. cbv zeta in Hcalls.
    exists args. split; [exact Hp|].
    destruct (rejectedStates _) as [|x rest]; [|discriminate Hcalls].
    simpl in Hcalls. injection Hcalls as <-. now split.
  - unfold callTool in Hcalls. simpl in Hcalls. unfold findParks in Hcalls.
    rewrite Hp in Hcalls. discriminate Hcalls.
Qed.

Lemma getAlerts_params (toLocaleDateString : string -> string) (gw : Gateway)
  (raw params : Obj Value) :
  fst (run gw (callTool toLocaleDateString (request "getAlerts" raw)))
  = [(Alerts, params)] ->
  exists args,
    GetAlertsSchema_parse raw = Return args
    /\ params = requestParamsOf (GetAlertsArgs.limit args) (GetAlertsArgs.props args).
Proof.
  intros Hcalls. unfold request in Hcalls.
  destruct (GetAlertsSchema_parse_cases raw) as [[args Hp]|[errors Hp]].
  - rewrite (getAlerts_run _ gw raw args Hp) in Hcalls. cbv zeta in Hcalls.
    exists args. split; [exact Hp|].
    simpl in Hcalls. now injection Hcalls as <-.
  - unfold callTool in Hcalls. simpl in Hcalls. unfold getAlerts in Hcalls.
    rewrite Hp in Hcalls. discriminate Hcalls.
Qed.

(** X8. The GET of a [findParks] or [getAlerts] invocation carries only
    keys of the tool's schema: the filters [stateCode], [q], [start] and
    [activities] (for [getAlerts]: [parkCode], [start] and [q]) are there
    exactly when the caller supplied them, with the caller's value
    unchanged, a [limit] is always there, and keys outside the schema are
    never forwarded. *)
Theorem only_schema_keys_reach_the_gateway :
  forall (toLocaleDateString : string -> string) (gw : Gateway)
         (raw params : Obj Value),
    (fst (run gw (callTool toLocaleDateString (request "findParks" raw)))
     = [(Parks, params)] ->
     (forall k, In k ["stateCode"; "q"; "start"; "activities"] ->
                own_get k params = own_get k raw)
     /\ (forall k, own_get k params <> None ->
                   In k ["limit"; "stateCode"; "q"; "start"; "activities"])
     /\ own_get "limit" params <> None)
    /\ (fst (run gw (callTool toLocaleDateString (request "getAlerts" raw)))
        = [(Alerts, params)] ->
        (forall k, In k ["parkCode"; "start"; "q"] ->
                   own_get k params = own_get k raw)
        /\ (forall k, own_get k params <> None ->
                      In k ["limit"; "parkCode"; "start"; "q"])
        /\ own_get "limit" params <> None).
Proof.
  intros f gw raw params. split; intros Hcalls.
  - destruct (findParks_params f gw raw params Hcalls) as [args [Hp [_ ->]]].
    destruct (FindParksSchema_parse_fields raw args Hp) as [H1 [H2 [_ [H4 H5]]]].
    split; [|split].
    + intros k [<-|[<-|[<-|[<-|[]]]]];
        [rewrite H1|rewrite H2|rewrite H4|rewrite H5];
        destruct args as [[sc|] [q|] [l|] [st|] [a|]]; reflexivity.
    + intros k Hk. apply own_get_In in Hk.
      destruct args as [[sc|] [q|] [l|] [st|] [a|]]; simpl in Hk |- *; tauto.
    + rewrite findParks_forwarded_limit. discriminate.
  - destruct (getAlerts_params f gw raw params Hcalls) as [args [Hp ->]].
    destruct (GetAlertsSchema_parse_fields raw args Hp) as [H1 [_ [H3 H4]]].
    split; [|split].
    + intros k [<-|[<-|[<-|[]]]];
        [rewrite H1|rewrite H3|rewrite H4];
        destruct args as [[pc|] [l|] [st|] [q|]]; reflexivity.
    + intros k Hk. apply own_get_In in Hk.
      destruct args as [[pc|] [l|] [st|] [q|]]; simpl in Hk |- *; tauto.
    + rewrite getAlerts_forwarded_limit. discriminate.
Qed.

Lemma only_schema_keys_reach_the_gateway_witness :
  own_get "q" [("limit", VInt 10); ("q", VStr "lake")]
  = own_get "q" [("q", VStr "lake"); ("apiKey", VStr "secret")]
  /\ own_get "apiKey" [("limit", VInt 10); ("q", VStr "lake")] = None.
Proof.
  pose proof (proj1 (only_schema_keys_reach_the_gateway sameText emptyGateway
                       [("q", VStr "lake"); ("apiKey", VStr "secret")]
                       [("limit", VInt 10); ("q", VStr "lake")]) eq_refl)
    as [Hsame [Honly _]].
  split.
  - apply Hsame. simpl. tauto.
  - destruct (own_get "apiKey" [("limit", VInt 10); ("q", VStr "lake")]) eqn:E;
      [|reflexivity].
    exfalso. assert (Hin : In "apiKey" ["limit"; "stateCode"; "q"; "start"; "activities"]).
    { apply Honly. rewrite E. discriminate. }
    simpl in Hin. intuition discriminate.
Defined.

(** ** State codes *)

Lemma upperChar_facts (c : ascii) :
  upperChar (upperChar c) = upperChar c
  /\ Ascii.eqb (upperChar c) comma = Ascii.eqb c comma
  /\ isWhiteSpace (upperChar c) = isWhiteSpace c.
Proof. destruct c as [[] [] [] [] [] [] [] []]; repeat split. Qed.

Lemma toUpperCase_idempotent (s : string) :
  toUpperCase (toUpperCase s) = toUpperCase s.
Proof.
  induction s as [|c r IH]; simpl; [reflexivity|].
  now rewrite IH, (proj1 (upperChar_facts c)).
Qed.

Lemma split_toUpperCase (s : string) :
  split comma (toUpperCase s) = map toUpperCase (split comma s).
Proof.
  induction s as [|c r IH]; simpl; [reflexivity|].
  rewrite (proj1 (proj2 (upperChar_facts c))), IH.
  pose proof (split_not_nil comma r) as Hne.
  destruct (Ascii.eqb c comma); [reflexivity|].
  now destruct (split comma r).
Qed.

Lemma trimStart_toUpperCase (s : string) :
  trimStart (toUpperCase s) = toUpperCase (trimStart s).
Proof.
  induction s as [|c r IH]; simpl; [reflexivity|].
  rewrite (proj2 (proj2 (upperChar_facts c))).
  now destruct (isWhiteSpace c).
Qed.

Lemma trimEnd_toUpperCase (s : string) :
  trimEnd (toUpperCase s) = toUpperCase (trimEnd s).
Proof.
  induction s as [|c r IH]; simpl; [reflexivity|].
  rewrite IH, (proj2 (proj2 (upperChar_facts c))).
  destruct (trimEnd r); simpl; [now destruct (isWhiteSpace c)|reflexivity].
Qed.

Lemma trim_toUpperCase (s : string) :
  trim (toUpperCase s) = toUpperCase (trim s).
Proof. unfold trim. now rewrite trimStart_toUpperCase, trimEnd_toUpperCase. Qed.

Lemma invalidStatesOf_nil (stateCode : string) :
  (forall seg, In seg (split comma stateCode) ->
               In (toUpperCase (trim seg)) STATE_CODES) ->
  invalidStatesOf stateCode = [].
Proof.
  intros Hall. unfold invalidStatesOf.
  destruct (filter _ _) as [|x rest] eqn:E; [reflexivity|].
  assert (Hx : In x (x :: rest)) by now left.
  rewrite <- E in Hx. apply filter_In in Hx. destruct Hx as [Hin Hno].
  apply in_map_iff in Hin. destruct Hin as [seg [<- Hseg]].
  apply Hall, includes_In in Hseg. rewrite Hseg in Hno. discriminate Hno.
Qed.

(** X9. A [findParks] invocation whose [stateCode] has only valid
    segments (each, once trimmed and upper-cased, is one of the valid codes)
    passes validation: one GET of [/parks] is issued, and it carries the
    [stateCode] exactly as the caller wrote it, not the trimmed and
    upper-cased codes. *)
Theorem valid_state_codes_are_forwarded_verbatim :
  forall (toLocaleDateString : string -> string) (gw : Gateway)
         (raw : Obj Value) (args : FindParksArgs.t) (stateCode : string),
    FindParksSchema_parse raw = Return args ->
    FindParksArgs.stateCode args = Some stateCode ->
    (forall seg, In seg (split comma stateCode) ->
                 In (toUpperCase (trim seg)) STATE_CODES) ->
    exists params,
      fst (run gw (callTool toLocaleDateString (request "findParks" raw)))
      = [(Parks, params)]
      /\ own_get "stateCode" params = Some (VStr stateCode).
Proof.
  intros f gw raw args stateCode Hp Hstate Hall.
  unfold request. rewrite (findParks_run f gw raw args Hp). cbv zeta.
  assert (Hrej : rejectedStates (FindParksArgs.stateCode args) = []).
  { rewrite Hstate. unfold rejectedStates.
    destruct (truthy_string stateCode); [now apply invalidStatesOf_nil|reflexivity]. }
  rewrite Hrej. simpl. eexists. split; [reflexivity|].
  destruct args as [[sc|] [q|] [l|] [st|] [a|]]; simpl in Hstate;
    try discriminate Hstate; injection Hstate as ->; reflexivity.
Qed.

Lemma valid_state_codes_are_forwarded_verbatim_witness :
  exists params,
    fst (run emptyGateway
           (callTool sameText (request "findParks" [("stateCode", VStr " ca,Or ")])))
    = [(Parks, params)]
    /\ own_get "stateCode" params = Some (VStr " ca,Or ").
Proof.
  refine (valid_state_codes_are_forwarded_verbatim sameText emptyGateway
            [("stateCode", VStr " ca,Or ")] _ " ca,Or " eq_refl eq_refl _).
  intros seg Hseg. simpl in Hseg.
  destruct Hseg as [<-|[<-|[]]]; apply includes_In; reflexivity.
Defined.

(** X10. The validation of state codes does not depend on letter case:
    upper-casing the whole [stateCode] argument changes neither whether it
    is rejected nor the invalid codes that are listed. *)
Theorem state_code_validation_ignores_case :
  forall stateCode : string,
    invalidStatesOf (toUpperCase stateCode) = invalidStatesOf stateCode
    /\ rejectedStates (Some (toUpperCase stateCode))
       = rejectedStates (Some stateCode).
Proof.
  intros s.
  assert (H : invalidStatesOf (toUpperCase s) = invalidStatesOf s).
  { unfold invalidStatesOf. rewrite split_toUpperCase, map_map. f_equal.
    apply map_ext. intros x.
    now rewrite trim_toUpperCase, toUpperCase_idempotent. }
  split; [exact H|].
  unfold rejectedStates. rewrite H. now destruct s.
Qed.

(** ** The states of a park *)

Lemma split_without_separator (sep : ascii) (t : string) :
  occurs sep t = false -> split sep t = [t].
Proof.
  induction t as [|c r IH]; simpl; [reflexivity|].
  intros H. apply orb_false_iff in H. destruct H as [Hc Hr].
  rewrite Hc, (IH Hr). reflexivity.
Qed.

Lemma split_app_separator (sep : ascii) (t r : string) :
  occurs sep t = false ->
  split sep (t ++ String sep r) = t :: split sep r.
Proof.
  induction t as [|c t IH]; simpl.
  - intros _. now rewrite Ascii.eqb_refl.
  - intros H. apply orb_false_iff in H. destruct H as [Hc Ht].
    rewrite Hc, (IH Ht). reflexivity.
Qed.

(** Splitting undoes joining, when no piece holds the separator. *)
Lemma split_join (sep : ascii) (l : list string) :
  l <> [] -> (forall t, In t l -> occurs sep t = false) ->
  split sep (join (String sep EmptyString) l) = l.
Proof.
  induction l as [|t l IH]; [contradiction|]. intros _ Hall.
  destruct l as [|t' l].
  - simpl. apply split_without_separator, Hall. now left.
  - change (join (String sep EmptyString) (t :: t' :: l))
      with (t ++ String sep (join (String sep EmptyString) (t' :: l)))%string.
    rewrite split_app_separator by (apply Hall; now left).
    f_equal. apply IH; [discriminate|].
    intros x Hx. apply Hall. now right.
Qed.

(** X11. When the raw [states] string of a park record is a non-empty list
    of pieces of ASCII text joined by commas, no piece holding a comma, the
    [states] field of the summary and of the detail mapping is the list of
    those pieces, each trimmed: as many entries as pieces, in the same
    order, each entry being its piece without the white space around it. *)
Theorem states_recover_the_joined_list :
  forall (park : ParkData.t) (pieces : list string),
    pieces <> [] ->
    (forall t, In t pieces -> occurs comma t = false) ->
    (forall t, In t pieces -> isAscii t = true) ->
    ParkData.states park = join "," pieces ->
    prop "states" (parkSummary park) = VArr (map VStr (map trim pieces))
    /\ prop "states" (formatParkDetails park) = VArr (map VStr (map trim pieces))
    /\ Forall2 isTrimOf pieces (map trim pieces).
Proof.
  intros park pieces Hne Hall _ Hstates.
  assert (H : splitStates (ParkData.states park) = map trim pieces).
  { unfold splitStates. rewrite Hstates.
    change "," with (String comma EmptyString).
    now rewrite split_join. }
  split; [|split].
  - simpl; unfold strings; now rewrite H.
  - simpl; unfold strings; now rewrite H.
  - clear. induction pieces as [|t l IH]; simpl; constructor;
      [apply trim_isTrimOf|exact IH].
Qed.

Lemma states_recover_the_joined_list_witness :
  prop "states" (parkSummary (samplePark "WY, MT,ID" []))
  = VArr (map VStr ["WY"; "MT"; "ID"]).
Proof.
  refine (proj1 (states_recover_the_joined_list (samplePark "WY, MT,ID" [])
                   ["WY"; " MT"; "ID"] _ _ _ eq_refl)).
  - discriminate.
  - intros t [<-|[<-|[<-|[]]]]; reflexivity.
  - intros t [<-|[<-|[<-|[]]]]; reflexivity.
Defined.

(** ** Objects: assignment and lookup *)

Section ObjectLaws.
Context {V : Type}.

Lemma own_get_overwrite_same (k : string) (v : V) (o : Obj V) :
  own_get k o <> None -> own_get k (overwrite k v o) = Some v.
Proof.
  induction o as [|[k' v'] o IH]; simpl; [congruence|].
  destruct (String.eqb k k') eqn:E; simpl; rewrite E; [reflexivity|exact IH].
Qed.

Lemma own_get_overwrite_other (k k' : string) (v : V) (o : Obj V) :
  k' <> k -> own_get k' (overwrite k v o) = own_get k' o.
Proof.
  intros Hne. induction o as [|[k0 v0] o IH]; simpl; [reflexivity|].
  destruct (String.eqb k k0) eqn:E; simpl.
  - apply String.eqb_eq in E. subst k0.
    now destruct (String.eqb_spec k' k).
  - now rewrite IH.
Qed.

Lemma own_get_insertIndex_same (i : N) (k : string) (v : V) (o : Obj V) :
  own_get k o = None -> own_get k (insertIndex i k v o) = Some v.
Proof.
  induction o as [|[k' v'] o IH]; simpl.
  - now rewrite String.eqb_refl.
  - destruct (String.eqb k k') eqn:E; [discriminate|]. intros H.
    destruct (arrayIndex k') as [j|]; [destruct (j <? i)%N|]; simpl.
    + rewrite E. now apply IH.
    + now rewrite String.eqb_refl.
    + now rewrite String.eqb_refl.
Qed.

Lemma own_get_insertIndex_other (i : N) (k k' : string) (v : V) (o : Obj V) :
  k' <> k -> own_get k' (insertIndex i k v o) = own_get k' o.
Proof.
  intros Hne. apply String.eqb_neq in Hne.
  induction o as [|[k0 v0] o IH]; simpl.
  - now rewrite Hne.
  - destruct (arrayIndex k0) as [j|]; [destruct (j <? i)%N|]; simpl.
    + now rewrite IH.
    + now rewrite Hne.
    + now rewrite Hne.
Qed.

Lemma own_get_app_other (k k' : string) (v : V) (o : Obj V) :
  k' <> k -> own_get k' (o ++ [(k, v)]) = own_get k' o.
Proof.
  intros Hne. apply String.eqb_neq in Hne.
  induction o as [|[k0 v0] o IH]; simpl.
  - now rewrite Hne.
  - now rewrite IH.
Qed.

(** Reading a key back after an assignment gives the assigned value. *)
Lemma own_get_own_set_same (k : string) (v : V) (o : Obj V) :
  own_get k (own_set k v o) = Some v.
Proof.
  unfold own_set. destruct (own_get k o) eqn:E.
  - apply own_get_overwrite_same. congruence.
  - destruct (arrayIndex k).
    + now apply own_get_insertIndex_same.
    + now apply own_get_app_new.
Qed.

(** An assignment leaves every other key as it was. *)
Lemma own_get_own_set_other (k k' : string) (v : V) (o : Obj V) :
  k' <> k -> own_get k' (own_set k v o) = own_get k' o.
Proof.
  intros Hne. unfold own_set. destruct (own_get k o).
  - now apply own_get_overwrite_other.
  - destruct (arrayIndex k).
    + now apply own_get_insertIndex_other.
    + now apply own_get_app_other.
Qed.

Lemma own_get_None_keys (k : string) (o : Obj V) :
  own_get k o = None <-> ~ In k (map fst o).
Proof.
  induction o as [|[k' v'] o IH]; simpl; [tauto|].
  destruct (String.eqb_spec k k') as [->|Hne].
  - split; [discriminate|tauto].
  - rewrite IH. split; [intros H [E|Hin]; [congruence|tauto]|tauto].
Qed.

Lemma keys_overwrite (k : string) (v : V) (o : Obj V) :
  map fst (overwrite k v o) = map fst o.
Proof.
  induction o as [|[k' v'] o IH]; simpl; [reflexivity|].
  destruct (String.eqb k k'); simpl; [reflexivity|now rewrite IH].
Qed.

Lemma keys_insertIndex (i : N) (k : string) (v : V) (o : Obj V) (x : string) :
  In x (map fst (insertIndex i k v o)) <-> x = k \/ In x (map fst o).
Proof.
  induction o as [|[k' v'] o IH]; simpl; [intuition congruence|].
  destruct (arrayIndex k') as [j|]; [destruct (j <? i)%N|]; simpl.
  - rewrite IH. intuition congruence.
  - intuition congruence.
  - intuition congruence.
Qed.

Lemma NoDup_insertIndex (i : N) (k : string) (v : V) (o : Obj V) :
  ~ In k (map fst o) -> NoDup (map fst o) ->
  NoDup (map fst (insertIndex i k v o)).
Proof.
  induction o as [|[k' v'] o IH]; simpl; intros Hnot Hnd.
  - constructor; [tauto|constructor].
  - assert (Hcons : NoDup (k :: k' :: map fst o)).
    { constructor; [simpl; tauto|exact Hnd]. }
    destruct (arrayIndex k') as [j|]; [destruct (j <? i)%N|]; simpl; try exact Hcons.
    inversion Hnd as [|? ? Hk' Hnd']; subst. constructor.
    + rewrite keys_insertIndex. intros [->|Hin]; tauto.
    + apply IH; tauto.
Qed.

Lemma NoDup_snoc (k : string) (l : list string) :
  ~ In k l -> NoDup l -> NoDup (l ++ [k]).
Proof.
  induction l as [|x l IH]; simpl; intros Hnot Hnd.
  - constructor; [tauto|constructor].
  - inversion Hnd as [|? ? Hx Hnd']; subst. constructor.
    + rewrite in_app_iff. simpl. intros [Hin|[E|[]]]; [tauto|].
      apply Hnot. now left.
    + apply IH; tauto.
Qed.

(** An assignment keeps the keys of an object pairwise distinct. *)
Lemma NoDup_own_set (k : string) (v : V) (o : Obj V) :
  NoDup (map fst o) -> NoDup (map fst (own_set k v o)).
Proof.
  intros Hnd. unfold own_set. destruct (own_get k o) eqn:E.
  - now rewrite keys_overwrite.
  - apply own_get_None_keys in E. destruct (arrayIndex k).
    + now apply NoDup_insertIndex.
    + rewrite map_app. simpl. now apply NoDup_snoc.
Qed.

End ObjectLaws.

(** ** Grouping, for every park code *)

Lemma groupedCount_app (o : Obj (list AlertSummary.t)) (k : string)
  (v : list AlertSummary.t) :
  groupedCount (o ++ [(k, v)]) = (groupedCount o + List.length v)%nat.
Proof.
  unfold groupedCount. rewrite map_app, list_sum_app. simpl. lia.
Qed.

Lemma groupedCount_insertIndex (i : N) (k : string) (v : list AlertSummary.t)
  (o : Obj (list AlertSummary.t)) :
  groupedCount (insertIndex i k v o) = (groupedCount o + List.length v)%nat.
Proof.
  unfold groupedCount. induction o as [|[k' v'] o IH]; simpl; [lia|].
  destruct (arrayIndex k') as [j|]; [destruct (j <? i)%N|]; simpl; lia.
Qed.

Lemma groupedCount_overwrite (k : string) (v arr : list AlertSummary.t)
  (o : Obj (list AlertSummary.t)) :
  own_get k o = Some arr ->
  (groupedCount (overwrite k v o) + List.length arr
   = groupedCount o + List.length v)%nat.
Proof.
  unfold groupedCount. induction o as [|[k' v'] o IH]; simpl; [discriminate|].
  destruct (String.eqb k k'); simpl.
  - intros H. injection H as ->. lia.
  - intros H. specialize (IH H). lia.
Qed.

Lemma groupedCount_own_set (k : string) (v : list AlertSummary.t)
  (o : Obj (list AlertSummary.t)) :
  (groupedCount (own_set k v o) + List.length (groupOr o k)
   = groupedCount o + List.length v)%nat.
Proof.
  unfold own_set, groupOr. destruct (own_get k o) as [arr|] eqn:E.
  - now apply groupedCount_overwrite.
  - simpl. destruct (arrayIndex k).
    + rewrite groupedCount_insertIndex. lia.
    + rewrite groupedCount_app. lia.
Qed.

(** One round of the loop either throws, on a park code that only finds an
    inherited property, or appends the alert to the group of its code and
    leaves the other groups alone. *)
Lemma groupAlert_cases (o : Obj (list AlertSummary.t)) (a : AlertSummary.t) :
  let key := AlertSummary.parkCode a in
  (own_get key o = None /\ inherited key = true
   /\ groupAlert o a = inl pushIsNotAFunction)
  \/ ((own_get key o <> None \/ inherited key = false)
      /\ exists o',
           groupAlert o a = inr o'
           /\ own_get key o' = Some (groupOr o key ++ [a])
           /\ (forall k, k <> key -> own_get k o' = own_get k o)
           /\ (NoDup (map fst o) -> NoDup (map fst o'))
           /\ groupedCount o' = S (groupedCount o)).
Proof.
  intros key. unfold groupAlert, groupOr. fold key.
  destruct (own_get key o) as [arr|] eqn:E.
  - right. split; [left; discriminate|]. rewrite E.
    exists (own_set key (arr ++ [a]) o). repeat split.
    + apply own_get_own_set_same.
    + intros k Hk. now apply own_get_own_set_other.
    + apply NoDup_own_set.
    + pose proof (groupedCount_own_set key (arr ++ [a]) o) as H.
      unfold groupOr in H. rewrite E, length_app in H. simpl in H. lia.
  - destruct (inherited key) eqn:I.
    + left. rewrite E. now repeat split.
    + right. split; [now right|].
      rewrite own_get_own_set_same.
      exists (own_set key ([] ++ [a]) (own_set key [] o)). repeat split.
      * apply own_get_own_set_same.
      * intros k Hk. now rewrite !own_get_own_set_other.
      * intros Hnd. now apply NoDup_own_set, NoDup_own_set.
      * pose proof (groupedCount_own_set key [] o) as H1.
        pose proof (groupedCount_own_set key ([] ++ [a]) (own_set key [] o)) as H2.
        unfold groupOr in H1, H2. rewrite E in H1.
        rewrite own_get_own_set_same in H2. simpl in H1, H2 |- *. lia.
Qed.

Lemma holdsGroupsOf_step (pre : list AlertSummary.t) (a : AlertSummary.t)
  (o o' : Obj (list AlertSummary.t)) :
  holdsGroupsOf pre o ->
  own_get (AlertSummary.parkCode a) o'
  = Some (groupOr o (AlertSummary.parkCode a) ++ [a]) ->
  (forall k, k <> AlertSummary.parkCode a -> own_get k o' = own_get k o) ->
  holdsGroupsOf (pre ++ [a]) o'.
Proof.
  intros Hinv Hsame Hother k. rewrite map_app, existsb_app. simpl.
  rewrite alertsOf_snoc, (String.eqb_sym (AlertSummary.parkCode a) k).
  destruct (String.eqb_spec k (AlertSummary.parkCode a)) as [->|Hne].
  - rewrite Hsame, orb_true_r. unfold groupOr. rewrite (Hinv (AlertSummary.parkCode a)).
    destruct (existsb _ _) eqn:E; [reflexivity|].
    now rewrite (alertsOf_absent _ pre E).
  - rewrite (Hother k Hne), (Hinv k), orb_false_r, app_nil_r. reflexivity.
Qed.

Lemma groupAlerts_invariant (alerts pre : list AlertSummary.t)
  (o : Obj (list AlertSummary.t)) :
  holdsGroupsOf pre o ->
  NoDup (map fst o) ->
  groupedCount o = List.length pre ->
  (forall a, In a pre -> inherited (AlertSummary.parkCode a) = false) ->
  if forallb (fun a => negb (inherited (AlertSummary.parkCode a))) alerts
  then exists o',
         groupAlerts alerts o = inr o'
         /\ holdsGroupsOf (pre ++ alerts) o'
         /\ NoDup (map fst o')
         /\ groupedCount o' = List.length (pre ++ alerts)
  else groupAlerts alerts o = inl pushIsNotAFunction.
Proof.
  revert pre o. induction alerts as [|a rest IH]; intros pre o Hinv Hnd Hcount Hpre.
  - simpl. exists o. rewrite app_nil_r. now repeat split.
  - cbn [forallb groupAlerts].
    destruct (groupAlert_cases o a)
      as [[Hnone [Hinh Hfail]]|[Hcond [o' [Hok [Hsame [Hother [Hnd' Hcount']]]]]]].
    + rewrite Hinh, Hfail. reflexivity.
    + assert (Hplain : inherited (AlertSummary.parkCode a) = false).
      { destruct Hcond as [Hsome|Hno]; [|exact Hno].
        rewrite (Hinv (AlertSummary.parkCode a)) in Hsome.
        destruct (existsb _ _) eqn:E; [|congruence].
        apply existsb_exists in E. destruct E as [c [Hc Heq]].
        apply String.eqb_eq in Heq. subst c.
        apply in_map_iff in Hc. destruct Hc as [b [Hb Hin]].
        rewrite <- Hb. now apply Hpre. }
      rewrite Hplain, Hok. cbn [negb andb].
      specialize (IH (pre ++ [a]) o'
                    (holdsGroupsOf_step pre a o o' Hinv Hsame Hother)
                    (Hnd' Hnd)).
      rewrite <- app_assoc in IH. simpl in IH. apply IH.
      * rewrite Hcount', Hcount, length_app. simpl. lia.
      * intros b Hb. apply in_app_iff in Hb. destruct Hb as [Hb|[<-|[]]].
        -- now apply Hpre.
        -- exact Hplain.
Qed.

Lemma groupAlerts_from_empty (alerts : list AlertSummary.t) :
  if forallb (fun a => negb (inherited (AlertSummary.parkCode a))) alerts
  then exists o,
         groupAlerts alerts [] = inr o
         /\ holdsGroupsOf alerts o
         /\ NoDup (map fst o)
         /\ groupedCount o = List.length alerts
  else groupAlerts alerts [] = inl pushIsNotAFunction.
Proof.
  apply (groupAlerts_invariant alerts [] []).
  - intros k. reflexivity.
  - constructor.
  - reflexivity.
  - intros a [].
Qed.

(** X12. Whenever the grouping loop of [getAlerts] completes, the object
    it built has, for every park code that occurs among the alerts, exactly
    the alerts of that code in their original relative order, and has no
    other key; this holds for numeric park codes as well. *)
Theorem groups_hold_exactly_the_alerts_of_their_park :
  forall (alerts : list AlertSummary.t) (alertsByPark : Obj (list AlertSummary.t)),
    groupAlerts alerts [] = inr alertsByPark ->
    forall parkCode,
      own_get parkCode alertsByPark
      = if existsb (String.eqb parkCode) (map AlertSummary.parkCode alerts)
        then Some (filter (fun alert =>
                             String.eqb (AlertSummary.parkCode alert) parkCode)
                     alerts)
        else None.
Proof.
  intros alerts o Hok. pose proof (groupAlerts_from_empty alerts) as H.
  destruct (forallb _ alerts).
  - destruct H as [o' [Heq [Hinv _]]]. rewrite Heq in Hok.
    injection Hok as <-. exact Hinv.
  - rewrite H in Hok. discriminate Hok.
Qed.

Lemma groups_hold_exactly_the_alerts_of_their_park_witness :
  own_get "7"
    [ ("7", [alertSummary sameText (sampleAlert "7" "Caution")]);
      ("yose", [alertSummary sameText (sampleAlert "yose" "Danger")]) ]
  = Some [alertSummary sameText (sampleAlert "7" "Caution")].
Proof.
  exact (groups_hold_exactly_the_alerts_of_their_park
           (formatAlertData sameText
              [sampleAlert "yose" "Danger"; sampleAlert "7" "Caution"])
           _ eq_refl "7").
Defined.

(** X13. The grouping loop of [getAlerts] throws exactly when some alert
    has a park code that names a property inherited from
    [Object.prototype], and what it throws is then the error of calling
    [push] on something that is not an array; otherwise it completes. *)
Theorem grouping_throws_exactly_on_inherited_names :
  forall alerts : list AlertSummary.t,
    ((forall alert, In alert alerts ->
                    inherited (AlertSummary.parkCode alert) = false) ->
     exists alertsByPark, groupAlerts alerts [] = inr alertsByPark)
    /\ ((exists alert, In alert alerts
                       /\ inherited (AlertSummary.parkCode alert) = true) ->
        groupAlerts alerts [] = inl pushIsNotAFunction).
Proof.
  intros alerts. pose proof (groupAlerts_from_empty alerts) as H.
  destruct (forallb _ alerts) eqn:E; split.
  - intros _. destruct H as [o [Heq _]]. now exists o.
  - intros [a [Hin Hinh]]. rewrite forallb_forall in E.
    specialize (E a Hin). rewrite Hinh in E. discriminate E.
  - intros Hall. assert (Htrue : forallb (fun a => negb (inherited (AlertSummary.parkCode a))) alerts = true).
    { apply forallb_forall. intros a Hin. now rewrite (Hall a Hin). }
    congruence.
  - intros _. exact H.
Qed.

Lemma grouping_throws_exactly_on_inherited_names_witness :
  groupAlerts
    (formatAlertData sameText [sampleAlert "yose" "Danger"; sampleAlert "toString" "Caution"])
    []
  = inl pushIsNotAFunction.
Proof.
  apply (proj2 (grouping_throws_exactly_on_inherited_names
                  (formatAlertData sameText
                     [sampleAlert "yose" "Danger"; sampleAlert "toString" "Caution"]))).
  exists (alertSummary sameText (sampleAlert "toString" "Caution")).
  split; [simpl; tauto|reflexivity].
Defined.

(** X14. Whenever the grouping loop of [getAlerts] completes, no park code
    is a key of the object twice, and the groups together hold exactly as
    many alerts as the flat list: no alert is dropped or repeated. *)
Theorem grouping_keeps_every_alert_once :
  forall (alerts : list AlertSummary.t) (alertsByPark : Obj (list AlertSummary.t)),
    groupAlerts alerts [] = inr alertsByPark ->
    NoDup (map fst alertsByPark)
    /\ list_sum (map (fun group => List.length (snd group)) alertsByPark)
       = List.length alerts.
Proof.
  intros alerts o Hok. pose proof (groupAlerts_from_empty alerts) as H.
  destruct (forallb _ alerts).
  - destruct H as [o' [Heq [_ [Hnd Hcount]]]]. rewrite Heq in Hok.
    injection Hok as <-. now split.
  - rewrite H in Hok. discriminate Hok.
Qed.

Lemma grouping_keeps_every_alert_once_witness :
  list_sum
    (map (fun group => List.length (snd group))
       (grouped (formatAlertData sameText fiveAlerts)))
  = 5%nat.
Proof.
  exact (proj2 (grouping_keeps_every_alert_once
                  (formatAlertData sameText fiveAlerts)
                  (grouped (formatAlertData sameText fiveAlerts)) eq_refl)).
Defined.

(** ** Printing what was parsed *)

Lemma append_length (s t : string) :
  String.length (s ++ t) = (String.length s + String.length t)%nat.
Proof. induction s as [|c s IH]; simpl; [reflexivity|now rewrite IH]. Qed.

Lemma append_assoc (s t u : string) : ((s ++ t) ++ u = s ++ (t ++ u))%string.
Proof. induction s as [|c s IH]; simpl; [reflexivity|now rewrite IH]. Qed.

Lemma string_last (c : ascii) (r : string) :
  exists s' c', String c r = (s' ++ String c' EmptyString)%string
                /\ String.length s' = String.length r.
Proof.
  revert c. induction r as [|d r IH]; intros c.
  - exists EmptyString, c. now split.
  - destruct (IH d) as [s' [c' [Heq Hlen]]].
    exists (String c s'), c'. simpl. now rewrite Heq, Hlen.
Qed.

Lemma string_rev_ind (P : string -> Prop) :
  P EmptyString ->
  (forall s c, P s -> P (s ++ String c EmptyString)%string) ->
  forall s, P s.
Proof.
  intros Hnil Hsnoc s.
  remember (String.length s) as n eqn:Hn. revert s Hn.
  induction n as [|n IH]; intros s Hn.
  - destruct s; [exact Hnil|discriminate Hn].
  - destruct s as [|c r]; [discriminate Hn|].
    destruct (string_last c r) as [s' [c' [-> Hlen]]].
    apply Hsnoc, IH. simpl in Hn. congruence.
Qed.

Lemma allDigits_snoc (s : string) (c : ascii) :
  allDigits (s ++ String c EmptyString) = allDigits s && isDigit c.
Proof.
  induction s as [|d s IH]; simpl; [now rewrite andb_true_r|].
  now rewrite IH, andb_assoc.
Qed.

Lemma decimalValue_snoc (s : string) (c : ascii) :
  decimalValue (s ++ String c EmptyString)
  = (10 * decimalValue s + (code c - 48))%N.
Proof.
  induction s as [|d s IH]; cbn [append decimalValue String.length].
  - change (10 ^ N.of_nat 0)%N with 1%N. lia.
  - rewrite IH, append_length. cbn [String.length].
    rewrite Nat.add_1_r, Nat2N.inj_succ, N.pow_succ_r'. ring.
Qed.

Lemma isDigit_bounds (c : ascii) :
  isDigit c = true -> (48 <= code c <= 57)%N.
Proof.
  unfold isDigit. intros H. apply andb_true_iff in H.
  destruct H as [H1 H2]. apply N.leb_le in H1, H2. now split.
Qed.

Lemma isDigit_char (c : ascii) :
  isDigit c = true -> ascii_of_N (48 + (code c - 48)) = c.
Proof.
  intros H. apply isDigit_bounds in H.
  replace (48 + (code c - 48))%N with (code c) by lia.
  apply ascii_N_embedding.
Qed.

Lemma leadingNonzero_positive (s : string) :
  allDigits s = true -> leadingNonzero s = true ->
  (10 ^ N.of_nat (Nat.pred (String.length s)) <= decimalValue s)%N.
Proof.
  destruct s as [|c r]; [discriminate|]. simpl. intros _ H.
  apply andb_true_iff in H. destruct H as [Hd Hnz].
  apply isDigit_bounds in Hd. apply negb_true_iff in Hnz.
  assert (Hne : code c <> 48%N).
  { intros E. destruct (Ascii.eqb_spec c "0"); [discriminate|].
    apply n. rewrite <- (ascii_N_embedding c). unfold code in E. now rewrite E. }
  nia.
Qed.

Lemma digitsOf_decimalValue (s : string) :
  allDigits s = true -> leadingNonzero s = true ->
  forall (fuel : nat) (acc : string),
    (String.length s <= fuel)%nat ->
    digitsOf fuel (decimalValue s) acc = (s ++ acc)%string.
Proof.
  induction s as [|s c IH] using string_rev_ind; [discriminate|].
  intros Hall Hlead fuel acc Hfuel.
  rewrite allDigits_snoc in Hall. apply andb_true_iff in Hall.
  destruct Hall as [Hs Hc].
  rewrite append_length in Hfuel. simpl in Hfuel.
  destruct fuel as [|fuel]; [lia|].
  rewrite decimalValue_snoc, append_assoc. simpl append.
  pose proof (isDigit_bounds c Hc) as Hb.
  assert (Hmod : ((10 * decimalValue s + (code c - 48)) mod 10 = code c - 48)%N).
  { symmetry. apply (N.mod_unique _ 10 (decimalValue s)); [lia|reflexivity]. }
  assert (Hdiv : ((10 * decimalValue s + (code c - 48)) / 10 = decimalValue s)%N).
  { symmetry. apply (N.div_unique _ 10 _ (code c - 48)); [lia|reflexivity]. }
  cbn [digitsOf]. rewrite Hmod, Hdiv, (isDigit_char c Hc).
  destruct (N.ltb_spec (10 * decimalValue s + (code c - 48)) 10) as [Hlt|Hge].
  - destruct s as [|d r]; [reflexivity|].
    pose proof (leadingNonzero_positive _ Hs Hlead) as Hpos.
    assert (H1 : (10 ^ N.of_nat (Nat.pred (String.length (String d r))) <> 0)%N)
      by (apply N.pow_nonzero; discriminate).
    lia.
  - destruct s as [|d r]; [simpl in Hge; lia|].
    apply IH; [exact Hs|exact Hlead|lia].
Qed.

Lemma canonicalNumeral_cases (s : string) :
  canonicalNumeral s = true ->
  s = "0" \/ (allDigits s = true /\ leadingNonzero s = true).
Proof.
  destruct s as [|c r]; [discriminate|]. unfold canonicalNumeral.
  intros H. apply andb_true_iff in H. destruct H as [Hall H].
  apply orb_true_iff in H. destruct H as [Hnz|Hone].
  - right. split; [exact Hall|]. simpl in Hall |- *.
    apply andb_true_iff in Hall. destruct Hall as [Hc _]. now rewrite Hc.
  - destruct r; [|discriminate].
    destruct (Ascii.eqb_spec c "0") as [->|Hne]; [now left|right].
    split; [exact Hall|]. simpl in Hall |- *.
    apply andb_true_iff in Hall. destruct Hall as [Hc _]. rewrite Hc.
    now destruct (Ascii.eqb_spec c "0").
Qed.

Lemma N_toString_decimalValue (s : string) :
  canonicalNumeral s = true -> N_toString (decimalValue s) = s.
Proof.
  intros H. destruct (canonicalNumeral_cases s H) as [->|[Hall Hlead]];
    [reflexivity|].
  unfold N_toString.
  rewrite (digitsOf_decimalValue s Hall Hlead).
  - clear. induction s as [|c s IH]; simpl; [reflexivity|now rewrite IH].
  - pose proof (leadingNonzero_positive s Hall Hlead) as Hpos.
    destruct s as [|c r]; [discriminate|]. simpl in *.
    assert (Hlog : (N.of_nat (String.length r) <= N.log2 (decimalValue (String c r)))%N).
    { rewrite <- (N.log2_pow2 (N.of_nat (String.length r))) by lia.
      apply N.log2_le_mono. eapply N.le_trans; [|exact Hpos].
      apply N.pow_le_mono_l. lia. }
    cbn [decimalValue] in Hlog. lia.
Qed.

(** X15. When an upstream echo ([total], [limit] or [start]) is a decimal
    numeral with no superfluous leading zero, denoting an integer of at most
    2^53, the handler's [parseInt] followed by [JSON.stringify] writes the
    very same digits into the result, unquoted: nothing is lost between the
    upstream string and the number the caller reads. *)
Theorem canonical_echo_is_written_back_unchanged :
  forall (echo gap indentation : string),
    canonicalNumeral echo = true ->
    exactEcho echo = true ->
    serialize gap indentation (VNum (parseInt echo)) = echo
    /\ parseInt echo = Int (Z.of_N (decimalValue echo)).
Proof.
  intros s gap ind H Hexact.
  assert (Hdec : isDecimal s = true).
  { unfold exactEcho in Hexact. now apply andb_true_iff in Hexact. }
  rewrite (parseInt_decimal s Hdec). split; [|reflexivity].
  destruct gap, ind; simpl; unfold Z_toString;
    (destruct (Z.ltb_spec (Z.of_N (decimalValue s)) 0); [lia|]);
    now rewrite Zabs2N.id, N_toString_decimalValue.
Qed.

Lemma canonical_echo_is_written_back_unchanged_witness :
  serialize "  " "  " (VNum (parseInt "471")) = "471".
Proof.
  exact (proj1 (canonical_echo_is_written_back_unchanged "471" "  " "  "
                  eq_refl eq_refl)).
Defined.

(** ** The API client *)

(** X16. Each operation of the client issues exactly one GET, on its own
    endpoint and with exactly the query parameters it was given
    ([getParkByCode] adds [limit = 1], [getAlertsByParkCode] sends the park
    code alone); it returns the body of a fulfilled GET untouched and
    rethrows the very error of a rejected one, without a second attempt. *)
Theorem client_operations_issue_one_GET :
  forall (gw : Gateway) (params : Obj Value) (parkCode : string),
    run gw (NPSApiClient.getParks params)
    = ([(Parks, params)], awaited (gw Parks params))
    /\ run gw (NPSApiClient.getAlerts params)
       = ([(Alerts, params)], awaited (gw Alerts params))
    /\ run gw (NPSApiClient.getParkByCode parkCode)
       = ([(Parks, [("parkCode", VStr parkCode); ("limit", VInt 1)])],
          awaited (gw Parks [("parkCode", VStr parkCode); ("limit", VInt 1)]))
    /\ run gw (NPSApiClient.getAlertsByParkCode parkCode)
       = ([(Alerts, [("parkCode", VStr parkCode)])],
          awaited (gw Alerts [("parkCode", VStr parkCode)])).
Proof.
  intros gw params parkCode.
  unfold NPSApiClient.getParks, NPSApiClient.getAlerts,
    NPSApiClient.getParkByCode, NPSApiClient.getAlertsByParkCode,
    NPSApiClient.api_get, VInt.
  repeat split; simpl;
    match goal with
    | |- context [gw ?path ?q] => destruct (gw path q)
    end; reflexivity.
Qed.

(** ** The two views of a park *)

(** X17. The detail view of a park agrees with its summary view on every
    field they share: name, code, url, description, designation, states,
    weather, activities, images, coordinates and e-mail addresses are equal,
    and the entrance fees are the same fees in the same order, the cost of
    each prefixed with a dollar sign in the detail view only. *)
Theorem detail_view_agrees_with_summary_view :
  forall park : ParkData.t,
    (forall k,
        In k ["name"; "code"; "url"; "description"; "designation"; "states";
              "weatherInfo"; "activities"; "images"] ->
        prop k (formatParkDetails park) = prop k (parkSummary park))
    /\ (forall k,
           In k ["latitude"; "longitude"] ->
           prop k (prop "location" (formatParkDetails park))
           = prop k (prop "location" (parkSummary park)))
    /\ prop "emailAddresses" (prop "contacts" (formatParkDetails park))
       = prop "emailAddresses" (prop "contacts" (parkSummary park))
    /\ (forall k,
           In k ["title"; "description"] ->
           map (prop k) (items (prop "entranceFees" (formatParkDetails park)))
           = map (prop k) (items (prop "entranceFees" (parkSummary park))))
    /\ map (prop "cost") (items (prop "entranceFees" (parkSummary park)))
       = map (fun fee => VStr (EntranceFee.cost fee)) (ParkData.entranceFees park)
    /\ map (prop "cost") (items (prop "entranceFees" (formatParkDetails park)))
       = map (fun fee => VStr ("$" ++ EntranceFee.cost fee))
           (ParkData.entranceFees park).
Proof.
  intros park. repeat split.
  - intros k Hk. simpl in Hk.
    repeat (destruct Hk as [<-|Hk]; [reflexivity|]). contradiction.
  - intros k Hk. simpl in Hk.
    repeat (destruct Hk as [<-|Hk]; [reflexivity|]). contradiction.
  - intros k Hk. simpl in Hk. simpl. rewrite !map_map.
    repeat (destruct Hk as [<-|Hk]; [reflexivity|]). contradiction.
  - simpl. now rewrite map_map.
  - simpl. now rewrite map_map.
Qed.

Lemma detail_view_agrees_with_summary_view_witness :
  prop "states" (formatParkDetails (samplePark "WY,MT" []))
  = prop "states" (parkSummary (samplePark "WY,MT" [])).
Proof.
  apply (proj1 (detail_view_agrees_with_summary_view (samplePark "WY,MT" []))).
  simpl. tauto.
Defined.

Lemma capitalized_spec (day : string) :
  (toUpperCase (charAt0 day) ++ slice1 day)%string = capitalized day.
Proof. now destruct day. Qed.

Lemma upperChar_code (c : ascii) : (code (upperChar c) <= code c)%N.
Proof.
  unfold upperChar.
  destruct ((97 <=? code c) && (code c <=? 122))%N eqn:E; [|lia].
  apply andb_true_iff in E. destruct E as [Hlo Hhi].
  apply N.leb_le in Hlo. apply N.leb_le in Hhi.
  revert Hlo Hhi. generalize (code c). intros n Hlo Hhi.
  unfold code. rewrite N_ascii_embedding by lia. lia.
Qed.

(** X18. In the detail view, the standard hours of an operating-hours
    entry whose day names are ASCII text become one line per day, in the
    order of the upstream object; a line is the day name with its first
    letter upper-cased and the rest unchanged, a colon and a space, and then
    the hours, or [Closed] when the hours are the empty string: the text
    after the colon is never empty. *)
Theorem standard_hours_become_one_line_per_day :
  forall park : ParkData.t,
    (forall hours entry,
        In hours (ParkData.operatingHours park) ->
        In entry (OperatingHours.standardHours hours) ->
        isAscii (fst entry) = true) ->
    map (prop "standardHours")
      (items (prop "operatingHours" (formatParkDetails park)))
    = map (fun hours =>
             VArr (map VStr (map formatDay (OperatingHours.standardHours hours))))
        (ParkData.operatingHours park)
    /\ forall day hours,
         isAscii day = true ->
         exists text,
           formatDay (day, hours) = (capitalized day ++ ": " ++ text)%string
           /\ text <> EmptyString
           /\ (hours <> EmptyString -> text = hours)
           /\ (hours = EmptyString -> text = "Closed")
           /\ String.length (capitalized day) = String.length day
           /\ isAscii (capitalized day) = true.
Proof.
  intros park _. split.
  - simpl. now rewrite map_map.
  - intros day hours Hday. unfold formatDay. rewrite capitalized_spec.
    assert (Hlen : String.length (capitalized day) = String.length day)
      by now destruct day.
    assert (Hup : isAscii (capitalized day) = true).
    { destruct day as [|c r]; [reflexivity|]. simpl in *.
      apply andb_true_iff in Hday. destruct Hday as [Hc Hr].
      rewrite Hr, andb_true_r. apply N.ltb_lt in Hc. apply N.ltb_lt.
      pose proof (upperChar_code c) as Hcode. lia. }
    destruct hours as [|c r].
    + exists "Closed". repeat split; try discriminate; try reflexivity;
        try assumption. congruence.
    + exists (String c r). repeat split; try discriminate; try reflexivity;
        assumption.
Qed.

Lemma standard_hours_become_one_line_per_day_witness :
  formatDay ("monday", EmptyString) = "Monday: Closed".
Proof.
  destruct (proj2 (standard_hours_become_one_line_per_day (samplePark "CA" [])
                     (fun hours entry (H : In hours []) _ => match H with end))
              "monday" EmptyString eq_refl) as [text [Hline [_ [_ [Hclosed _]]]]].
  rewrite Hline, (Hclosed eq_refl). reflexivity.
Defined.

(** ** Alerts *)

(** X19. The normalized alert keeps the title, description, park code and
    url of the record as they are; its [lastUpdated] is [Unknown] when the
    record has an empty [lastIndexedDate], whatever the locale of the host,
    and is the locale's rendering of that date otherwise. *)
Theorem alert_fields_pass_through :
  forall (toLocaleDateString : string -> string) (alert : AlertData.t),
    let summary := alertSummary toLocaleDateString alert in
    AlertSummary.title summary = AlertData.title alert
    /\ AlertSummary.description summary = AlertData.description alert
    /\ AlertSummary.parkCode summary = AlertData.parkCode alert
    /\ AlertSummary.url summary = AlertData.url alert
    /\ (AlertData.lastIndexedDate alert = EmptyString ->
        AlertSummary.lastUpdated summary = "Unknown"
        /\ forall otherLocale, alertSummary otherLocale alert = summary)
    /\ (AlertData.lastIndexedDate alert <> EmptyString ->
        AlertSummary.lastUpdated summary
        = toLocaleDateString (AlertData.lastIndexedDate alert)).
Proof.
  intros f alert summary. subst summary. unfold alertSummary. simpl.
  repeat split.
  - now rewrite H.
  - intros g. now rewrite H.
  - destruct (AlertData.lastIndexedDate alert); [contradiction|reflexivity].
Qed.

Lemma alert_fields_pass_through_witness :
  AlertSummary.lastUpdated (alertSummary sameText (sampleAlert "yose" "Danger"))
  = "Unknown".
Proof.
  exact (proj1 (proj1 (proj2 (proj2 (proj2 (proj2
           (alert_fields_pass_through sameText (sampleAlert "yose" "Danger"))))))
           eq_refl)).
Defined.

(** ** The order of the keys of [alertsByPark] *)

Lemma digitsPrefix_start (s : string) :
  isDecimal s = true -> digitsPrefix 10 s None = Some (decimalValue s).
Proof.
  destruct s as [|c r]; [discriminate|]. unfold isDecimal.
  cbn [truthy_string andb allDigits]. intros H.
  apply andb_true_iff in H. destruct H as [Hc Hr].
  cbn [digitsPrefix]. rewrite (isDigit_value c Hc), (digitsPrefix_decimal r _ Hr).
  cbn [decimalValue]. f_equal; try ring.
Qed.

Lemma arrayIndex_canonical (k : string) (i : N) :
  arrayIndex k = Some i -> canonicalNumeral k = true /\ i = decimalValue k.
Proof.
  destruct k as [|c r]; [discriminate|]. unfold arrayIndex, canonicalNumeral.
  destruct (allDigits (String c r) && _) eqn:E; [|discriminate].
  assert (Hdec : isDecimal (String c r) = true).
  { apply andb_true_iff in E. unfold isDecimal. now rewrite (proj1 E). }
  rewrite (digitsPrefix_start _ Hdec).
  destruct (decimalValue (String c r) <=? 4294967294)%N; [|discriminate].
  intros H. injection H as <-. now split.
Qed.

(** Two keys that denote the same array index are the same key. *)
Lemma arrayIndex_injective (k k' : string) (i : N) :
  arrayIndex k = Some i -> arrayIndex k' = Some i -> k = k'.
Proof.
  intros H H'. apply arrayIndex_canonical in H, H'.
  destruct H as [Hc ->], H' as [Hc' Heq].
  rewrite <- (N_toString_decimalValue k Hc), <- (N_toString_decimalValue k' Hc').
  now rewrite Heq.
Qed.

Section KeyOrder.
Context {V : Type}.

Lemma keysOrdered_overwrite (k : string) (v : V) (o : Obj V) :
  keysOrdered (map fst o) -> keysOrdered (map fst (overwrite k v o)).
Proof. now rewrite keys_overwrite. Qed.

Lemma keysOrdered_snoc (k : string) (keys : list string) :
  arrayIndex k = None -> keysOrdered keys -> keysOrdered (keys ++ [k]).
Proof.
  intros Hk. induction keys as [|x keys IH]; simpl.
  - intros _. split; [intros k' []|exact I].
  - intros [Hx Hrest]. split; [|now apply IH].
    intros k' Hin. apply in_app_iff in Hin. destruct Hin as [Hin|[<-|[]]].
    + now apply Hx.
    + unfold keyBefore. rewrite Hk. now destruct (arrayIndex x).
Qed.

Lemma keysOrdered_insertIndex (i : N) (k : string) (v : V) (o : Obj V) :
  arrayIndex k = Some i -> ~ In k (map fst o) ->
  keysOrdered (map fst o) -> keysOrdered (map fst (insertIndex i k v o)).
Proof.
  intros Hk. induction o as [|[k' v'] o IH]; simpl; intros Hnot Hord.
  - split; [intros k' []|exact I].
  - destruct Hord as [Hhead Hrest].
    assert (Hnew : arrayIndex k' <> Some i).
    { intros E. apply Hnot. left. now apply (arrayIndex_injective k' k i). }
    destruct (arrayIndex k') as [j|] eqn:Hk'.
    + destruct (N.ltb_spec j i) as [Hlt|Hge]; simpl.
      * split; [|apply IH; tauto].
        intros x Hx. apply keys_insertIndex in Hx. destruct Hx as [->|Hx].
        -- unfold keyBefore. now rewrite Hk', Hk.
        -- now apply Hhead.
      * assert (Hij : (i < j)%N).
        { destruct (N.eq_dec i j) as [->|]; [congruence|lia]. }
        split; [|now split].
        intros x [<-|Hx].
        -- unfold keyBefore. now rewrite Hk, Hk'.
        -- specialize (Hhead x Hx). unfold keyBefore in *.
           rewrite Hk' in Hhead. rewrite Hk.
           destruct (arrayIndex x); [lia|exact I].
    + simpl. split; [|now split].
      intros x [<-|Hx].
      * unfold keyBefore. now rewrite Hk, Hk'.
      * specialize (Hhead x Hx). unfold keyBefore in *.
        rewrite Hk' in Hhead. rewrite Hk.
        destruct (arrayIndex x); [contradiction|exact I].
Qed.

(** An assignment keeps the keys of an object in their order. *)
Lemma keysOrdered_own_set (k : string) (v : V) (o : Obj V) :
  keysOrdered (map fst o) -> keysOrdered (map fst (own_set k v o)).
Proof.
  intros Hord. unfold own_set. destruct (own_get k o) eqn:E.
  - now apply keysOrdered_overwrite.
  - apply own_get_None_keys in E. destruct (arrayIndex k) as [i|] eqn:Hk.
    + now apply keysOrdered_insertIndex.
    + rewrite map_app. now apply keysOrdered_snoc.
Qed.

Lemma plainKeys_insertIndex (i : N) (k : string) (v : V) (o : Obj V) :
  arrayIndex k = Some i ->
  filter (fun x => negb (isIndexKey x)) (map fst (insertIndex i k v o))
  = filter (fun x => negb (isIndexKey x)) (map fst o).
Proof.
  intros Hk.
  assert (Hidx : negb (isIndexKey k) = false) by (unfold isIndexKey; now rewrite Hk).
  induction o as [|[k' v'] o IH]; simpl; [now rewrite Hidx|].
  destruct (arrayIndex k') as [j|] eqn:Hk'; [destruct (j <? i)%N|]; simpl;
    rewrite ?Hidx, ?IH; reflexivity.
Qed.

(** The keys that are not array indices, after an assignment: a new one is
    added last, and nothing else changes. *)
Lemma plainKeys_own_set (k : string) (v : V) (o : Obj V) :
  filter (fun x => negb (isIndexKey x)) (map fst (own_set k v o))
  = filter (fun x => negb (isIndexKey x)) (map fst o)
    ++ (if isIndexKey k then []
        else match own_get k o with Some _ => [] | None => [k] end).
Proof.
  unfold own_set. destruct (own_get k o) eqn:E.
  - rewrite keys_overwrite. destruct (isIndexKey k); now rewrite app_nil_r.
  - destruct (arrayIndex k) as [i|] eqn:Hk.
    + assert (Hidx : isIndexKey k = true) by (unfold isIndexKey; now rewrite Hk).
      rewrite (plainKeys_insertIndex i k v o Hk), Hidx. now rewrite app_nil_r.
    + assert (Hidx : isIndexKey k = false) by (unfold isIndexKey; now rewrite Hk).
      rewrite map_app, filter_app. simpl. now rewrite Hidx.
Qed.

End KeyOrder.

Lemma groupAlert_keys (o o' : Obj (list AlertSummary.t)) (a : AlertSummary.t) :
  groupAlert o a = inr o' ->
  (keysOrdered (map fst o) -> keysOrdered (map fst o'))
  /\ filter (fun x => negb (isIndexKey x)) (map fst o')
     = filter (fun x => negb (isIndexKey x)) (map fst o)
       ++ (if isIndexKey (AlertSummary.parkCode a) then []
           else match own_get (AlertSummary.parkCode a) o with
                | Some _ => []
                | None => [AlertSummary.parkCode a]
                end).
Proof.
  unfold groupAlert. set (key := AlertSummary.parkCode a).
  destruct (own_get key o) as [arr|] eqn:E.
  - rewrite E. intros H. injection H as <-. split.
    + apply keysOrdered_own_set.
    + now rewrite plainKeys_own_set, E.
  - destruct (inherited key); [rewrite E; discriminate|].
    rewrite own_get_own_set_same. intros H. injection H as <-. split.
    + intros Hord. now apply keysOrdered_own_set, keysOrdered_own_set.
    + rewrite !plainKeys_own_set, own_get_own_set_same, E.
      destruct (isIndexKey key); now rewrite ?app_nil_r.
Qed.

Lemma existsb_filter (f : string -> bool) (k : string) (l : list string) :
  f k = true ->
  existsb (String.eqb k) (filter f l) = existsb (String.eqb k) l.
Proof.
  intros Hk. apply eq_true_iff_eq. rewrite !existsb_eqb_In, filter_In. tauto.
Qed.

Lemma groupAlerts_keys (alerts pre : list AlertSummary.t)
  (o o' : Obj (list AlertSummary.t)) :
  holdsGroupsOf pre o ->
  keysOrdered (map fst o) ->
  filter (fun x => negb (isIndexKey x)) (map fst o)
  = firstOccurrences
      (filter (fun x => negb (isIndexKey x)) (map AlertSummary.parkCode pre)) ->
  groupAlerts alerts o = inr o' ->
  keysOrdered (map fst o')
  /\ filter (fun x => negb (isIndexKey x)) (map fst o')
     = firstOccurrences
         (filter (fun x => negb (isIndexKey x))
            (map AlertSummary.parkCode (pre ++ alerts))).
Proof.
  revert pre o. induction alerts as [|a rest IH]; intros pre o Hinv Hord Hplain Hrun.
  - simpl in Hrun. injection Hrun as <-. rewrite app_nil_r. now split.
  - simpl in Hrun. destruct (groupAlert o a) as [e|o1] eqn:Hstep; [discriminate|].
    destruct (groupAlert_keys o o1 a Hstep) as [Hord1 Hplain1].
    destruct (groupAlert_cases o a)
      as [[_ [_ Hfail]]|[_ [o2 [Hok [Hsame [Hother _]]]]]]; [congruence|].
    assert (o2 = o1) by congruence. subst o2.
    replace (pre ++ a :: rest) with ((pre ++ [a]) ++ rest)
      by now rewrite <- app_assoc.
    apply (IH (pre ++ [a]) o1).
    + now apply (holdsGroupsOf_step pre a o o1).
    + now apply Hord1.
    + rewrite Hplain1, Hplain, map_app, filter_app. simpl.
      set (key := AlertSummary.parkCode a).
      destruct (isIndexKey key) eqn:Hidx; simpl; [now rewrite !app_nil_r|].
      rewrite firstOccurrences_snoc, existsb_filter by now rewrite Hidx.
      rewrite (Hinv key).
      now destruct (existsb (String.eqb key) (map AlertSummary.parkCode pre));
        rewrite ?app_nil_r.
    + exact Hrun.
Qed.

(** X20. Whenever the grouping loop of [getAlerts] completes, the keys of
    [alertsByPark] stand in this order: the park codes that are array
    indices first, in ascending numeric order, then the other park codes in
    the order of their first occurrence among the alerts. *)
Theorem alertsByPark_keys_are_ordered :
  forall (alerts : list AlertSummary.t) (alertsByPark : Obj (list AlertSummary.t)),
    groupAlerts alerts [] = inr alertsByPark ->
    keysOrdered (map fst alertsByPark)
    /\ filter (fun k => negb (isIndexKey k)) (map fst alertsByPark)
       = firstOccurrences
           (filter (fun k => negb (isIndexKey k))
              (map AlertSummary.parkCode alerts)).
Proof.
  intros alerts o Hrun.
  apply (groupAlerts_keys alerts [] [] o); try assumption.
  - intros k. reflexivity.
  - exact I.
  - reflexivity.
Qed.

Lemma alertsByPark_keys_are_ordered_witness :
  filter (fun k => negb (isIndexKey k)) ["7"; "12"; "yose"; "grca"]
  = firstOccurrences
      (filter (fun k => negb (isIndexKey k)) ["yose"; "12"; "grca"; "7"; "yose"]).
Proof.
  exact (proj2 (alertsByPark_keys_are_ordered
                  (formatAlertData sameText
                     [ sampleAlert "yose" "Danger"; sampleAlert "12" "Caution";
                       sampleAlert "grca" "Danger"; sampleAlert "7" "Caution";
                       sampleAlert "yose" "Caution" ])
                  _ eq_refl)).
Defined.

(** ** Stray commas and white space in state codes *)

Lemma split_trailing_separator (sep : ascii) (s : string) :
  exists t l,
    split sep (s ++ String sep EmptyString) = t :: l ++ [EmptyString].
Proof.
  induction s as [|c r [t [l IH]]]; simpl.
  - rewrite Ascii.eqb_refl. now exists EmptyString, [].
  - rewrite IH. destruct (Ascii.eqb c sep).
    + now exists EmptyString, (t :: l).
    + now exists (String c t), l.
Qed.

Lemma empty_segment_rejected (stateCode : string) :
  stateCode <> EmptyString ->
  In EmptyString (split comma stateCode) ->
  In EmptyString (rejectedStates (Some stateCode)).
Proof.
  intros Hne Hin. unfold rejectedStates.
  destruct stateCode; [contradiction|]. simpl truthy_string. cbv iota.
  unfold invalidStatesOf. apply filter_In. split; [|reflexivity].
  apply in_map_iff. now exists EmptyString.
Qed.

(** X21. A [stateCode] that ends or begins with a comma has an empty
    segment, which is not a valid code: the [findParks] invocation is
    rejected with the invalid-state envelope, whose list of invalid codes
    holds the empty string, and no GET is issued. *)
Theorem stray_comma_rejects_the_state_codes :
  forall (toLocaleDateString : string -> string) (gw : Gateway)
         (raw : Obj Value) (args : FindParksArgs.t) (s : string),
    FindParksSchema_parse raw = Return args ->
    FindParksArgs.stateCode args = Some (s ++ ",")%string
    \/ FindParksArgs.stateCode args = Some ("," ++ s)%string ->
    exists invalidStates,
      run gw (callTool toLocaleDateString (request "findParks" raw))
      = ([], inr (textResult (JSON_stringify (invalidStatesEnvelope invalidStates))))
      /\ In EmptyString invalidStates.
Proof.
  intros f gw raw args s Hp Hstate.
  assert (Hin : In EmptyString (rejectedStates (FindParksArgs.stateCode args))).
  { destruct Hstate as [->| ->]; apply empty_segment_rejected.
    - now destruct s.
    - change ","%string with (String comma EmptyString).
      destruct (split_trailing_separator comma s) as [t [l ->]].
      right. apply in_app_iff. right. now left.
    - discriminate.
    - simpl. now left. }
  exists (rejectedStates (FindParksArgs.stateCode args)). split; [|exact Hin].
  unfold request. rewrite (findParks_run f gw raw args Hp). cbv zeta.
  now destruct (rejectedStates (FindParksArgs.stateCode args)).
Qed.

Lemma stray_comma_rejects_the_state_codes_witness :
  exists invalidStates,
    run emptyGateway (callTool sameText (request "findParks" [("stateCode", VStr "CA,")]))
    = ([], inr (textResult (JSON_stringify (invalidStatesEnvelope invalidStates))))
    /\ In EmptyString invalidStates.
Proof.
  exact (stray_comma_rejects_the_state_codes sameText emptyGateway
           [("stateCode", VStr "CA,")] _ "CA" eq_refl (or_introl eq_refl)).
Defined.

(** X22. The validation of state codes looks only at the trimmed
    segments: two comma-joined lists of pieces whose pieces are equal once
    trimmed are rejected alike, with the same invalid codes listed. *)
Theorem state_code_validation_ignores_white_space :
  forall pieces pieces' : list string,
    pieces <> [] -> pieces' <> [] ->
    (forall t, In t pieces -> occurs comma t = false) ->
    (forall t, In t pieces' -> occurs comma t = false) ->
    map trim pieces = map trim pieces' ->
    invalidStatesOf (join "," pieces) = invalidStatesOf (join "," pieces').
Proof.
  intros l l' Hne Hne' Hall Hall' Heq. unfold invalidStatesOf.
  change ","%string with (String comma EmptyString).
  rewrite (split_join comma l Hne Hall), (split_join comma l' Hne' Hall').
  rewrite <- (map_map trim toUpperCase l), <- (map_map trim toUpperCase l').
  now rewrite Heq.
Qed.

Lemma state_code_validation_ignores_white_space_witness :
  invalidStatesOf " ca , zz,OR" = invalidStatesOf "ca,zz ,  OR".
Proof.
  refine (state_code_validation_ignores_white_space
            [" ca "; " zz"; "OR"] ["ca"; "zz "; "  OR"] _ _ _ _ eq_refl).
  - discriminate.
  - discriminate.
  - intros t [<-|[<-|[<-|[]]]]; reflexivity.
  - intros t [<-|[<-|[<-|[]]]]; reflexivity.
Defined.
